(** * armory-library report viewer: the browser-side modules

    A shallow embedding of
      - components/compare-metrics.js  ([reorganizeMetrics] and the table cell),
      - routes/index.js                (the route table),
      - routes/single-run.js           (run resolution, the watcher, the tab bar),
    and the properties of the report viewer's specification that concern them.

    JavaScript values are modelled as follows.  Strings are [string]; the only
    string operation the code applies is [split("/")], which cuts at one ASCII
    character and is therefore insensitive to the encoding of the others.
    An object used as a dictionary is a [gmap] of its own properties, together
    with what the language adds to an object literal: the properties inherited
    from [Object.prototype].  An object whose keys are enumerated
    ([Object.keys]) is an association list in enumeration order.  A call that
    can throw returns a [completion]. *)

From Stdlib Require Import ZArith Ascii String.
From stdpp Require Import base strings list gmap.

#[local] Set Warnings "-clear-no-such-hyp".

Local Open Scope string_scope.
Local Open Scope list_scope.
Local Open Scope Z_scope.

(** ** The JavaScript built-ins the sources use *)
Module Js.

Inductive Error : Set := TypeError | RangeError.

(** The outcome of evaluating an expression or a function body. *)
Inductive completion (A : Type) : Type :=
| Normal (a : A)
| Throw (e : Error).
Arguments Normal {A} a.
Arguments Throw {A} e.

Definition bind {A B} (c : completion A) (k : A → completion B) : completion B :=
  match c with
  | Normal a => k a
  | Throw e => Throw e
  end.

(** [for (const x of xs) body], the loop state threaded through [body]. *)
Fixpoint for_of {A S} (body : S → A → completion S) (xs : list A) (s : S)
    : completion S :=
  match xs with
  | [] => Normal s
  | x :: xs' => bind (body s x) (for_of body xs')
  end.

(** [s.split("/")]: the segments between the slashes, at least one. *)
Fixpoint split (s : string) : list string :=
  match s with
  | EmptyString => [""]
  | String a s' =>
      if Ascii.eqb a "/"%char then "" :: split s'
      else match split s' with
           | seg :: segs => String a seg :: segs
           | [] => [String a ""]
           end
  end.

(** [xs.includes(x)] on an array of strings. *)
Definition includes (xs : list string) (x : string) : bool :=
  bool_decide (x ∈ xs).

(** [new Set()] with [add]: iteration follows first insertion. *)
Definition set_add (s : list string) (x : string) : list string :=
  if bool_decide (x ∈ s) then s else s ++ [x].

(** [Object.keys(o)] and [o[k]] on a dictionary given in enumeration order. *)
Definition keys {V} (o : list (string * V)) : list string := o.*1.

Fixpoint get {V} (o : list (string * V)) (k : string) : option V :=
  match o with
  | [] => None
  | (k', v) :: o' => if String.eqb k' k then Some v else get o' k
  end.

(** The property names every object literal inherits from
    [Object.prototype]. *)
Definition Object_prototype : list string :=
  [ "constructor"; "hasOwnProperty"; "isPrototypeOf"; "propertyIsEnumerable";
    "toLocaleString"; "toString"; "valueOf"; "__proto__";
    "__defineGetter__"; "__defineSetter__"; "__lookupGetter__";
    "__lookupSetter__" ].

Definition inherited (k : string) : bool := bool_decide (k ∈ Object_prototype).

(** [k in o] for an object literal [o] with own properties [own]: the
    operator follows the prototype chain. *)
Definition has_property {V} (own : gmap string V) (k : string) : bool :=
  bool_decide (is_Some (own !! k)) || inherited k.

(** [o[k] = v] on an object literal.  The key ["__proto__"] reaches the
    setter inherited from [Object.prototype]: it replaces the prototype of
    [o] by the object [v] and creates no own property. *)
Definition assign {V} (own : gmap string V) (k : string) (v : V)
    : gmap string V :=
  if String.eqb k "__proto__" then own else <[k := v]> own.

(** A Number: a finite double is [m * 2^e] for integers [m], [e] (the two
    zeros are not told apart; [toFixed] prints them alike). *)
Inductive Number : Set :=
| NaN
| Infinity (negative : bool)
| Finite (m e : Z).

(** [|m * 2^e| * 10^f] as a fraction [(num, den)] with [den > 0]. *)
Definition scaled (m e f : Z) : Z * Z :=
  if 0 <=? e then (Z.abs m * 2 ^ e * 10 ^ f, 1)
  else (Z.abs m * 10 ^ f, 2 ^ (- e)).

(** The integer [n] for which [n - num/den] is closest to zero, the larger
    one when there are two. *)
Definition nearest (q : Z * Z) : Z := (2 * q.1 + q.2) `div` (2 * q.2).

Definition digit (d : Z) : ascii := ascii_of_nat (48 + Z.to_nat d).

Fixpoint decimal_go (fuel : nat) (n : Z) (acc : string) : string :=
  match fuel with
  | O => acc
  | S fuel' =>
      let acc' := String (digit (n `mod` 10)) acc in
      if n <? 10 then acc' else decimal_go fuel' (n `div` 10) acc'
  end.

(** The decimal digits of [n >= 0], without leading zeros (["0"] for 0). *)
Definition decimal (n : Z) : string :=
  decimal_go (S (Z.to_nat (Z.log2 n))) n "".

Fixpoint zeros (k : nat) : string :=
  match k with
  | O => ""
  | S k' => String "0"%char (zeros k')
  end.

Section ToFixed.
(** [Number::toString], which [toFixed] falls back on for values that are
    not finite or not below 10^21; its digits are not modelled. *)
Variable Number_toString : Number → string.

(** [x.toFixed(fractionDigits)], with [fractionDigits] already converted to an
    integer: a [RangeError] outside 0..100; [Number::toString] for a value
    that is not finite or not below 10^21; otherwise the digits of
    [n = nearest (|x| * 10^f)], padded with zeros to at least [f + 1] digits
    when [f] is not 0, with a point before the last [f] of them. *)
Definition toFixed (x : Number) (fractionDigits : Z) : completion string :=
  if (fractionDigits <? 0) || (100 <? fractionDigits) then Throw RangeError
  else
    match x with
    | Finite m e =>
        let q := scaled m e 0 in
        if 10 ^ 21 * q.2 <=? q.1 then Normal (Number_toString x)
        else
          let s := if m <? 0 then "-" else "" in
          let n := nearest (scaled m e fractionDigits) in
          let digits := decimal n in
          if fractionDigits =? 0 then Normal (s +:+ digits)
          else
            let f := Z.to_nat fractionDigits in
            let k := String.length digits in
            let padded :=
              if (k <=? f)%nat then zeros (f + 1 - k) +:+ digits else digits in
            let k := String.length padded in
            Normal (s +:+ substring 0 (k - f) padded +:+ "."
                      +:+ substring (k - f) f padded)
    | _ => Normal (Number_toString x)
    end.
End ToFixed.

End Js.

(** ** components/compare-metrics.js *)
Module CompareMetrics.
Import Js.

(** A run record, as far as this component reads it. *)
Record Info : Set := { run_id : string; run_name : string }.
Record Data : Set := { metrics : list (string * Number) }.
Record Run : Set := { info : Info; data : Data }.

#[export] Instance Number_eq_dec : EqDecision Number.
Proof. solve_decision. Defined.
#[export] Instance Info_eq_dec : EqDecision Info.
Proof. solve_decision. Defined.
#[export] Instance Data_eq_dec : EqDecision Data.
Proof. solve_decision. Defined.
#[export] Instance Run_eq_dec : EqDecision Run.
Proof. solve_decision. Defined.

(** The value [reorganizeMetrics] returns: the own properties of its two
    object literals. *)
Record Metrics : Type := {
  byRunId : gmap string Run;
  columns : gmap string (list string)
}.

(** Lines 23-28, one turn of the loop over [runs]: the keys of the run join
    [allMetrics] and the run is stored under its identifier. *)
Definition collect (acc : gmap string Run * list string) (run : Run)
    : gmap string Run * list string :=
  let allMetrics := foldl set_add acc.2 (keys (metrics (data run))) in
  (assign acc.1 (run_id (info run)) run, allMetrics).

(** Line 38, [columns[metric].push(chain)]: an own property holds an array;
    an inherited one holds a function (or, for ["__proto__"], the prototype
    object), which has no [push]. *)
Definition push (columns : gmap string (list string)) (metric chain : string)
    : completion (gmap string (list string)) :=
  match columns !! metric with
  | Some chains => Normal (<[metric := chains ++ [chain]]> columns)
  | None => Throw TypeError
  end.

(** Lines 31-42, one turn of the loop over [allMetrics]. *)
Definition place (hiddenMetrics hiddenChains : list string)
    (columns : gmap string (list string)) (key : string)
    : completion (gmap string (list string)) :=
  match split key with
  | [chain; metric] =>
      if negb (String.eqb chain "system") then
        if includes hiddenMetrics metric || includes hiddenChains chain
        then Normal columns
        else if has_property columns metric then push columns metric chain
        else Normal (<[metric := [chain]]> columns)
      else Normal columns
  | _ => Normal columns
  end.

(** Lines 20-45. *)
Definition reorganizeMetrics (runs : list Run)
    (hiddenMetrics hiddenChains : list string) : completion Metrics :=
  let acc := foldl collect (∅, []) runs in
  bind (for_of (place hiddenMetrics hiddenChains) acc.2 ∅)
       (λ columns, Normal {| byRunId := acc.1; columns := columns |}).

(** Line 151, the text of one table cell:
    [run.data.metrics[chain + "/" + metric].toFixed(precision)].  When the
    key is no own property the lookup yields [undefined] or an inherited
    function, neither of which has a [toFixed] to call. *)
Definition TableCell (Number_toString : Number → string) (run : Run)
    (chain metric : string) (precision : Z) : completion string :=
  match get (metrics (data run)) (chain +:+ "/" +:+ metric) with
  | Some value => toFixed Number_toString value precision
  | None => Throw TypeError
  end.

End CompareMetrics.

(** ** routes/index.js *)
Module Routes.

Inductive Component : Set :=
| Overview | SingleRun | MultipleRuns | RunDetails | RunMetrics
| RunParameters | RunPipeline | RunArtifacts | CompareMetrics | RunDiff.

(** A route record; [redirect] holds the name of the target route. *)
#[local] Unset Elimination Schemes.
Inductive Route : Set := mkRoute {
  path : string;
  name : option string;
  component : option Component;
  redirect : option string;
  props : bool;
  children : list Route
}.
#[local] Set Elimination Schemes.

Definition leaf (p : string) (n : string) (c : Component) : Route :=
  mkRoute p (Some n) (Some c) None false [].

(** Lines 12-38. *)
Definition routes : list Route :=
  [ leaf "/" "index" Overview;
    mkRoute "/run/:id" (Some "single-run") (Some SingleRun)
      (Some "single-run-details") true
      [ leaf "" "single-run-details" RunDetails;
        leaf "metrics" "single-run-metrics" RunMetrics;
        leaf "parameters" "single-run-params" RunParameters;
        leaf "pipeline" "single-run-pipeline" RunPipeline;
        leaf "artifacts" "single-run-artifacts" RunArtifacts ];
    mkRoute "/compare" (Some "compare-runs") (Some MultipleRuns) None false
      [ mkRoute "" None None (Some "compare-runs-metrics") false [];
        leaf "metrics" "compare-runs-metrics" CompareMetrics;
        leaf "diff" "compare-runs-diff" RunDiff ] ].

Definition starts_with_slash (p : string) : bool :=
  match p with
  | String a _ => Ascii.eqb a "/"%char
  | EmptyString => false
  end.

Fixpoint ends_with_slash (p : string) : bool :=
  match p with
  | EmptyString => false
  | String a EmptyString => Ascii.eqb a "/"%char
  | String _ p' => ends_with_slash p'
  end.

(** The path the router registers for a record: a child path that does not
    start with a slash is appended to the path of its parent, and an empty
    child path leaves the parent's path as it is. *)
Definition full_path (parent : option string) (p : string) : string :=
  match parent with
  | Some pp =>
      if starts_with_slash p then p
      else if String.eqb p "" then pp
      else if ends_with_slash pp then pp +:+ p
      else pp +:+ "/" +:+ p
  | None => p
  end.

(** The registered records of a route and its descendants, each with its
    full path. *)
Fixpoint records (parent : option string) (r : Route)
    : list (string * Route) :=
  match r with
  | mkRoute p _ _ _ _ cs =>
      let full := full_path parent p in
      (full, r) :: flat_map (records (Some full)) cs
  end.

Definition table : list (string * Route) := flat_map (records None) routes.

(** The named routes, each with the path it resolves to. *)
Definition named : list (string * string) :=
  omap (λ '(full, r), (λ n, (n, full)) <$> name r) table.

Definition names : list string := named.*1.

(** The paths a route name resolves to. *)
Definition resolve (n : string) : list string :=
  omap (λ '(n', full), if String.eqb n' n then Some full else None) named.

(** The redirect target of the record named [n], if it has one. *)
Definition redirect_of (n : string) : option string :=
  head (omap (λ '(_, r),
                match name r with
                | Some n' => if String.eqb n' n then redirect r else None
                | None => None
                end) table).

(** The redirect target of the child with path [p] under the route whose
    own path is [parent_path]. *)
Definition child_redirect (parent_path p : string) : option string :=
  head (omap (λ r,
                if String.eqb (path r) parent_path
                then head (omap (λ c, if String.eqb (path c) p
                                      then redirect c else None)
                                (children r))
                else None) routes).

End Routes.

(** ** routes/single-run.js *)
Module SingleRun.
Import CompareMetrics.

(** Lines 20-22, the computed [run]: [runs.filter(...)[0]], the first run of
    the store whose identifier equals the [id] prop. *)
Definition run (runs : list Run) (id : string) : option Run :=
  head (filter (λ r, run_id (info r) = id) runs).

(** Lines 24-26, the callback handed to [watch]: the names of the routes it
    pushes. *)
Definition on_run (newRun : option Run) : list string :=
  match newRun with
  | None => ["index"]
  | Some _ => []
  end.

(** A mounted component: the value of [run] the watcher saw last and the
    route names pushed to the router so far. *)
Record Instance : Set := { watched : option Run; pushed : list string }.

(** [setup]: [watch(run, callback)] without the [immediate] option
    evaluates [run] once to remember it and does not call the callback. *)
Definition setup (runs : list Run) (id : string) : Instance :=
  {| watched := run runs id; pushed := [] |}.

(** A change of the store's run collection or of the [id] prop: the watcher
    evaluates [run] again and calls the callback when the value differs
    from the one it remembers.  (Two distinct objects with equal contents
    count as unchanged here; the callback pushes nothing for an object.) *)
Definition update (c : Instance) (runs : list Run) (id : string) : Instance :=
  let newRun := run runs id in
  if decide (newRun = watched c) then c
  else {| watched := newRun; pushed := pushed c ++ on_run newRun |}.

(** The component's life: mounted on the first state of the store and
    props, then notified of each later one. *)
Definition run_through (first : list Run * string)
    (later : list (list Run * string)) : Instance :=
  foldl (λ c '(runs, id), update c runs id) (setup first.1 first.2) later.

Record Tab : Set := { dest : string; label : string }.

(** Lines 29-36. *)
Definition tabs : list Tab :=
  [ {| dest := "single-run-details"; label := "Details" |};
    {| dest := "single-run-metrics"; label := "Metrics" |};
    {| dest := "single-run-runtime"; label := "Runtime" |};
    {| dest := "single-run-params"; label := "Parameters" |};
    {| dest := "single-run-samples"; label := "Samples" |};
    {| dest := "single-run-flowchart"; label := "Flowchart" |} ].

End SingleRun.

(** ** Vocabulary of the specification *)
Module Spec.
Import Js CompareMetrics.

(** The metric key of chain [c] and metric name [m]. *)
Definition key_of (c m : string) : string := c +:+ "/" +:+ m.

(** The segments joined again by slashes. *)
Fixpoint join (segs : list string) : string :=
  match segs with
  | [] => ""
  | [seg] => seg
  | seg :: segs' => seg +:+ "/" +:+ join segs'
  end.

(** Every metric key met while iterating the runs in order and, within a
    run, its keys in enumeration order. *)
Definition all_keys (runs : list Run) : list string :=
  flat_map (λ run, keys (metrics (data run))) runs.

(** The position at which [x] occurs first in [l]. *)
Fixpoint first_index (x : string) (l : list string) : option nat :=
  match l with
  | [] => None
  | y :: l' => if decide (y = x) then Some 0%nat else (S <$> first_index x l')
  end.

(** [x] and [y] both occur in [l], and [x] is met first. *)
Definition before (x y : string) (l : list string) : Prop :=
  match first_index x l, first_index y l with
  | Some i, Some j => (i < j)%nat
  | _, _ => False
  end.

(** The column a metric key stands for, if it is one that can be shown:
    two segments, the first not ["system"], neither one hidden. *)
Definition column_of (hiddenMetrics hiddenChains : list string)
    (key : string) : option (string * string) :=
  match split key with
  | [chain; metric] =>
      if bool_decide (chain ≠ "system" ∧ (metric ∉ hiddenMetrics)
                      ∧ (chain ∉ hiddenChains))
      then Some (metric, chain) else None
  | _ => None
  end.

(** The chain a metric key contributes to the column group of [m]. *)
Definition chain_in (hiddenMetrics hiddenChains : list string) (m : string)
    (key : string) : option string :=
  match column_of hiddenMetrics hiddenChains key with
  | Some (metric, chain) => if decide (metric = m) then Some chain else None
  | None => None
  end.

(** The run stored last under identifier [id]. *)
Definition last_with_id (id : string) (runs : list Run) : option Run :=
  last (filter (λ run, run_id (info run) = id) runs).

(** The decimal number a string of digits denotes. *)
Definition digit_value (a : ascii) : option Z :=
  let n := Z.of_nat (nat_of_ascii a) in
  if (48 <=? n) && (n <=? 57) then Some (n - 48) else None.

Fixpoint decimal_value_go (acc : Z) (s : string) : option Z :=
  match s with
  | EmptyString => Some acc
  | String a s' =>
      match digit_value a with
      | Some d => decimal_value_go (10 * acc + d) s'
      | None => None
      end
  end.

Definition decimal_value (s : string) : option Z := decimal_value_go 0 s.

(** A string of digits written without a superfluous leading zero: ["0"]
    itself, or a string that starts with another character than "0". *)
Definition no_leading_zero (s : string) : Prop :=
  s = "0" ∨ ∃ a rest, s = String a rest ∧ a ≠ "0"%char.

(** The finite double [m * 2^e] is below 10^21 in magnitude, where [toFixed]
    prints in fixed-point notation. *)
Definition below_1e21 (m e : Z) : Prop :=
  (scaled m e 0).1 < 10 ^ 21 * (scaled m e 0).2.

End Spec.

(** ** Sample data *)
Module Sample.
Import Js CompareMetrics.

Definition run (id name : string) (ms : list (string * Number)) : Run :=
  {| info := {| run_id := id; run_name := name |};
     data := {| metrics := ms |} |}.

(** 0.5, 0.25 and 0.75 as doubles. *)
Definition half : Number := Finite 1 (-1).
Definition quarter : Number := Finite 1 (-2).
Definition three_quarters : Number := Finite 3 (-2).

(** Two runs, the second of which lacks a key the first reports. *)
Definition baseline : Run :=
  run "r1" "baseline"
    [("attack/accuracy", half); ("defense/accuracy", three_quarters);
     ("attack/loss", quarter); ("system/cpu", half)].
Definition partial : Run :=
  run "r2" "partial" [("defense/accuracy", half); ("attack/loss", quarter)].

(** The double written [0.123456789]: 0x1.f9add3739635fp-4. *)
Definition d0_123456789 : Number := Finite 8895999182988127 (-56).

Definition measured : Run := run "r4" "measured" [("attack/accuracy", d0_123456789)].

(** A run with a metric named like a method of every object. *)
Definition shadowing : Run :=
  run "r3" "shadowing" [("attack/accuracy", half); ("attack/toString", half)].

(** A run whose identifier is the name of the prototype accessor. *)
Definition accessor : Run := run "__proto__" "accessor" [("attack/loss", half)].

End Sample.

(** ** components/compare-metrics.js, the template *)
Module Template.
Import Js CompareMetrics.

(** A [v-for] over an object visits its own properties in the enumeration
    order of the object; below, [cols] stands for that enumeration of
    [metrics.columns] (metric name, chains) and [rows] for that of
    [metrics.byRunId] (key, run).  What the framework does with a cell whose
    expression throws is not modelled: a cell is the outcome of its
    expression. *)

(** Lines 109-119, the first header row: one header per metric name, with
    its text and its [colspan]. *)
Definition metric_headers (cols : list (string * list string))
    : list (string * nat) :=
  (λ '(metric, chains), (metric, length chains)) <$> cols.

(** Lines 124-135, the second header row: one header per chain of each
    metric name. *)
Definition chain_headers (cols : list (string * list string)) : list string :=
  flat_map (λ '(_, chains), chains) cols.

(** Lines 149-153, the metric cells of the row of [run], one per chain of
    each metric name. *)
Definition row_cells (Number_toString : Number → string) (run : Run)
    (cols : list (string * list string)) (precision : Z)
    : list (completion string) :=
  flat_map (λ '(metric, chains),
              (λ chain, TableCell Number_toString run chain metric precision)
                <$> chains)
           cols.

(** A body row: the [id] parameter and the text of the link in the row
    header, the metric cells, whether the Baseline button is shown active,
    and the argument its click hands to [toggleBaselineRun]. *)
Record Row : Set := {
  link_id : string;
  link_text : string;
  cells : list (completion string);
  active : bool;
  toggles : string
}.

(** Lines 140-162, one [TableRow]; [baselineRun] is the store's value, [None]
    when no run is the baseline. *)
Definition TableRow (Number_toString : Number → string)
    (baselineRun : option string) (cols : list (string * list string))
    (precision : Z) (row : string * Run) : Row :=
  let '(runId, run) := row in
  {| link_id := run_id (info run);
     link_text := run_name (info run);
     cells := row_cells Number_toString run cols precision;
     active := bool_decide (baselineRun = Some runId);
     toggles := runId |}.

(** Lines 139-163, the table body. *)
Definition TableBody (Number_toString : Number → string)
    (baselineRun : option string) (cols : list (string * list string))
    (precision : Z) (rows : list (string * Run)) : list Row :=
  TableRow Number_toString baselineRun cols precision <$> rows.

(** Line 143, the route the link of a row header names. *)
Definition row_link : string := "single-run-metrics".

End Template.

(** ** Vocabulary for traces of the single-run page *)
Module Trace.
Import CompareMetrics.

(** The number of places in a sequence of resolutions where a run is followed
    by no run. *)
Fixpoint losses (seen : list (option Run)) : nat :=
  match seen with
  | Some _ :: (None :: _) as rest => S (losses rest)
  | _ :: rest => losses rest
  | [] => O
  end.

(** The resolutions of [run] over the states the page goes through. *)
Definition resolutions (states : list (list Run * string)) : list (option Run) :=
  (λ '(runs, id), SingleRun.run runs id) <$> states.

(** The states of a store that only grows: after [runs], each element of
    [adds] is appended in turn, the [id] prop staying the same. *)
Fixpoint grow (runs : list Run) (id : string) (adds : list (list Run))
    : list (list Run * string) :=
  match adds with
  | [] => []
  | more :: adds' => (runs ++ more, id) :: grow (runs ++ more) id adds'
  end.

End Trace.

(** * Properties *)

Import Js CompareMetrics Spec.

(** ** Splitting at slashes *)
Section Split.

Lemma split_not_nil s : split s ≠ [].
Proof. destruct s as [|a s]; simpl; [done|]. by repeat case_match. Qed.

Lemma split_app_slash a b : split (a +:+ "/" +:+ b) = split a ++ split b.
Proof.
  induction a as [|x a IH]; simpl; [done|].
  rewrite IH. destruct (Ascii.eqb x "/"); [done|].
  destruct (split a) eqn:Ha; [by apply split_not_nil in Ha|done].
Qed.

Lemma join_cons_char x seg segs :
  join (String x seg :: segs) = String x (join (seg :: segs)).
Proof. by destruct segs. Qed.

Lemma join_cons_seg seg seg' segs :
  join (seg :: seg' :: segs) = seg +:+ "/" +:+ join (seg' :: segs).
Proof. done. Qed.

Lemma join_split s : join (split s) = s.
Proof.
  induction s as [|x s IH]; [done|].
  cbn [split]. destruct (Ascii.eqb_spec x "/") as [->|Hx].
  - destruct (split s) eqn:Hs; [by apply split_not_nil in Hs|].
    by rewrite join_cons_seg, IH.
  - destruct (split s) eqn:Hs; [by apply split_not_nil in Hs|].
    by rewrite join_cons_char, IH.
Qed.

Lemma split_pair k c m : split k = [c; m] → k = key_of c m.
Proof. intros H. by rewrite <-(join_split k), H. Qed.

Lemma split_one s : length (split s) = 1%nat → split s = [s].
Proof.
  intros H. destruct (split s) as [|t [|??]] eqn:Hs; try done.
  by rewrite <-(join_split s), Hs.
Qed.

Lemma split_key_of c m :
  length (split (key_of c m)) = 2%nat → split (key_of c m) = [c; m].
Proof.
  unfold key_of. rewrite split_app_slash, length_app. intros H.
  pose proof (split_not_nil c) as Hc. pose proof (split_not_nil m) as Hm.
  assert (length (split c) = 1%nat ∧ length (split m) = 1%nat) as [H1 H2].
  { destruct (split c), (split m); simpl in *; try done; lia. }
  by rewrite (split_one _ H1), (split_one _ H2).
Qed.

Lemma split_pair_iff k c m :
  split k = [c; m] ↔ k = key_of c m ∧ length (split (key_of c m)) = 2%nat.
Proof.
  split.
  - intros H. pose proof (split_pair _ _ _ H) as ->. by rewrite H.
  - intros [-> H]. by apply split_key_of.
Qed.

End Split.

(** ** First occurrences *)
Section Before.
Implicit Types (x y a : string) (l : list string).

Lemma first_index_lt x l i : first_index x l = Some i → (i < length l)%nat.
Proof.
  revert i. induction l as [|a l IH]; intros i; simpl; [done|].
  destruct (decide (a = x)); [intros [= E]; lia|].
  destruct (first_index x l) as [j|]; simpl; [|done].
  intros [= E]. specialize (IH j eq_refl). lia.
Qed.

Lemma first_index_is_Some x l : is_Some (first_index x l) ↔ x ∈ l.
Proof.
  induction l as [|a l IH]; simpl.
  - split; [by intros [??]|by intros ?%elem_of_nil].
  - rewrite elem_of_cons. destruct (decide (a = x)) as [Ea|Ea].
    + split; [by left|by eexists].
    + rewrite fmap_is_Some, IH. naive_solver.
Qed.

Lemma first_index_None x l : first_index x l = None ↔ x ∉ l.
Proof. by rewrite <-first_index_is_Some, eq_None_not_Some. Qed.

Lemma first_index_snoc x l a :
  first_index x (l ++ [a]) =
    match first_index x l with
    | Some i => Some i
    | None => if decide (a = x) then Some (length l) else None
    end.
Proof.
  induction l as [|b l IH]; simpl.
  - by destruct (decide (a = x)).
  - destruct (decide (b = x)); [done|]. rewrite IH.
    destruct (first_index x l); [done|]. by destruct (decide (a = x)).
Qed.

Lemma before_cons x y a l :
  before x y (a :: l) ↔ (a = x ∧ x ≠ y ∧ y ∈ l) ∨ (a ≠ x ∧ a ≠ y ∧ before x y l).
Proof.
  unfold before. cbn [first_index].
  pose proof (first_index_is_Some y l) as Hy.
  destruct (decide (a = x)) as [Ex|Ex], (decide (a = y)) as [Ey|Ey].
  - split; [lia|]. intros [(_&?&_)|(?&_)]; congruence.
  - destruct (first_index y l) as [j|]; simpl.
    + split; [|lia]. intros _. left. split_and!; [done|congruence|].
      apply Hy. by eexists.
    + split; [done|]. intros [(_&_&[? [=]]%Hy)|(?&_)]; done.
  - destruct (first_index x l) as [i|]; simpl.
    + split; [lia|]. intros [(?&_)|(_&?&_)]; done.
    + split; [done|]. intros [(?&_)|(_&?&_)]; done.
  - destruct (first_index x l) as [i|], (first_index y l) as [j|]; simpl.
    + split; [intros ?; right; split_and!; [done..|lia]|].
      intros [(?&_)|(_&_&?)]; [done|lia].
    + split; [done|]. intros [(?&_)|(_&_&?)]; done.
    + split; [done|]. intros [(?&_)|(_&_&?)]; done.
    + split; [done|]. intros [(?&_)|(_&_&?)]; done.
Qed.

Lemma before_snoc x y l a :
  before x y (l ++ [a]) ↔ before x y l ∨ (x ∈ l ∧ (y ∉ l) ∧ a = y).
Proof.
  unfold before. rewrite !first_index_snoc.
  rewrite <-(first_index_is_Some x l), <-(first_index_None y l).
  destruct (first_index x l) as [i|] eqn:Ex, (first_index y l) as [j|] eqn:Ey.
  - split; [by left|]. by intros [?|(_&?&_)].
  - apply first_index_lt in Ex. destruct (decide (a = y)) as [Ea|Ea].
    + split; [|done]. intros _. right. split_and!; [by eexists|done..].
    + split; [done|]. by intros [?|(_&_&?)].
  - apply first_index_lt in Ey. split.
    + destruct (decide (a = x)); [lia|done].
    + by intros [?|([? ?]&_)].
  - split.
    + destruct (decide (a = x)); [|done]. destruct (decide (a = y)); [lia|done].
    + by intros [?|([? ?]&_)].
Qed.

End Before.

(** ** The first loop: [allMetrics] and [byRunId] *)
Section Collect.

Lemma set_add_old s x : x ∈ s → set_add s x = s.
Proof. intros H. unfold set_add. by rewrite bool_decide_true. Qed.

Lemma set_add_new s x : x ∉ s → set_add s x = s ++ [x].
Proof. intros H. unfold set_add. by rewrite bool_decide_false. Qed.

Lemma elem_of_set_add s x y : y ∈ set_add s x ↔ y ∈ s ∨ y = x.
Proof.
  unfold set_add. case_bool_decide.
  - naive_solver.
  - rewrite elem_of_app, list_elem_of_singleton. naive_solver.
Qed.

Lemma NoDup_set_add s x : NoDup s → NoDup (set_add s x).
Proof.
  intros Hs. unfold set_add. case_bool_decide; [done|].
  apply NoDup_app. split_and!; [done| |apply NoDup_singleton].
  intros y Hy ->%list_elem_of_singleton. done.
Qed.

Lemma foldl_snoc {A B} (f : A → B → A) a l x :
  foldl f a (l ++ [x]) = f (foldl f a l) x.
Proof. by rewrite foldl_app. Qed.

Lemma elem_of_foldl_set_add ks s y :
  y ∈ foldl set_add s ks ↔ y ∈ s ∨ y ∈ ks.
Proof.
  induction ks as [|k ks IH] using rev_ind; simpl.
  - rewrite elem_of_nil. naive_solver.
  - rewrite foldl_snoc, elem_of_set_add, IH, elem_of_app,
      list_elem_of_singleton. naive_solver.
Qed.

Lemma NoDup_foldl_set_add ks s : NoDup s → NoDup (foldl set_add s ks).
Proof.
  intros Hs. induction ks as [|k ks IH] using rev_ind; [done|].
  rewrite foldl_snoc. by apply NoDup_set_add.
Qed.

(** The set keeps the keys in the order in which they are met first. *)
Lemma before_foldl_set_add x y ks :
  before x y (foldl set_add [] ks) ↔ before x y ks.
Proof.
  induction ks as [|k ks IH] using rev_ind; [done|].
  rewrite foldl_snoc, before_snoc, <-IH.
  destruct (decide (k ∈ foldl set_add [] ks)) as [Hk|Hk].
  - rewrite set_add_old by done. split; [by left|].
    intros [?|(_&Hy&->)]; [done|].
    rewrite elem_of_foldl_set_add, elem_of_nil in Hk. naive_solver.
  - rewrite set_add_new, before_snoc, !elem_of_foldl_set_add, !elem_of_nil
      by done.
    naive_solver.
Qed.

Lemma foldl_collect b s runs :
  foldl collect (b, s) runs =
    (foldl (λ b run, assign b (run_id (info run)) run) b runs,
     foldl set_add s (all_keys runs)).
Proof.
  revert b s. induction runs as [|r runs IH]; intros b s; [done|].
  cbn [foldl]. unfold collect at 2. cbn [fst snd]. rewrite IH.
  unfold all_keys. cbn [flat_map]. by rewrite foldl_app.
Qed.

Lemma elem_of_all_keys k runs :
  k ∈ all_keys runs ↔ ∃ run, run ∈ runs ∧ k ∈ keys (metrics (data run)).
Proof.
  unfold all_keys. rewrite list_elem_of_In, in_flat_map.
  by setoid_rewrite <-list_elem_of_In.
Qed.

Lemma last_with_id_cons id r runs :
  last_with_id id (r :: runs) =
    match last_with_id id runs with
    | Some r' => Some r'
    | None => if decide (run_id (info r) = id) then Some r else None
    end.
Proof.
  unfold last_with_id. destruct (decide (run_id (info r) = id)) as [E|E].
  - rewrite filter_cons_True, last_cons by done. by destruct (last _).
  - rewrite filter_cons_False by done. by destruct (last _).
Qed.

Lemma lookup_foldl_assign id runs b :
  foldl (λ b run, assign b (run_id (info run)) run) b runs !! id =
    if decide (id = "__proto__") then b !! id
    else match last_with_id id runs with
         | Some r => Some r
         | None => b !! id
         end.
Proof.
  revert b. induction runs as [|r runs IH]; intros b.
  - simpl. by case_decide.
  - cbn [foldl]. rewrite IH, last_with_id_cons. unfold assign.
    case_decide as Hid; subst.
    + destruct (String.eqb_spec (run_id (info r)) "__proto__"); [done|].
      by rewrite lookup_insert_ne.
    + destruct (last_with_id id runs); [done|].
      destruct (String.eqb_spec (run_id (info r)) "__proto__") as [E|E].
      * case_decide; [congruence|done].
      * case_decide; subst; [by rewrite lookup_insert_eq|].
        by rewrite lookup_insert_ne.
Qed.

End Collect.

(** ** The second loop: [columns] *)
Section Place.
Context (hm hc : list string).
Implicit Types (cols : gmap string (list string)) (l : list string).

Lemma place_column_of cols key :
  place hm hc cols key =
    match column_of hm hc key with
    | None => Normal cols
    | Some (metric, chain) =>
        if has_property cols metric then push cols metric chain
        else Normal (<[metric := [chain]]> cols)
    end.
Proof.
  unfold place, column_of, includes.
  destruct (split key) as [|c [|m [|??]]]; try done.
  destruct (String.eqb_spec c "system") as [->|Hc]; cbn [negb].
  - rewrite bool_decide_false; [done|]. by intros [? _].
  - destruct (bool_decide_reflect (c ≠ "system" ∧ (m ∉ hm) ∧ (c ∉ hc)))
      as [(_&Hm&Hc')|H].
    + by rewrite (bool_decide_false (m ∈ hm)), (bool_decide_false (c ∈ hc)).
    + destruct (bool_decide_reflect (m ∈ hm)); [done|].
      destruct (bool_decide_reflect (c ∈ hc)); [done|]. by destruct H.
Qed.

Lemma place_Normal cols key cols' :
  place hm hc cols key = Normal cols' →
  cols' = match column_of hm hc key with
          | None => cols
          | Some (metric, chain) =>
              <[metric := default [] (cols !! metric) ++ [chain]]> cols
          end.
Proof.
  rewrite place_column_of. destruct (column_of hm hc key) as [[m c]|].
  - unfold has_property, push. destruct (cols !! m) as [chains|] eqn:E; simpl.
    + by intros [= <-].
    + destruct (inherited m); [done|]. by intros [= <-].
  - by intros [= <-].
Qed.

(** A turn of the loop throws exactly when the key's metric name is one
    the object inherits and does not own. *)
Lemma place_Throw cols key e :
  place hm hc cols key = Throw e ↔
    e = TypeError ∧
    ∃ metric chain, column_of hm hc key = Some (metric, chain) ∧
      cols !! metric = None ∧ inherited metric = true.
Proof.
  rewrite place_column_of. destruct (column_of hm hc key) as [[m c]|].
  - unfold has_property, push. destruct (cols !! m) as [chains|] eqn:E; simpl.
    + split; [done|]. intros (_&?&?&[= <- <-]&?&_). congruence.
    + destruct (inherited m) eqn:Ei.
      * split; [intros [= <-]; eauto 10|]. by intros [-> _].
      * split; [done|]. intros (_&?&?&[= <- <-]&_&?). congruence.
  - split; [done|]. by intros (_&?&?&?&_).
Qed.

Lemma for_of_place_lookup l cols cols' m :
  for_of (place hm hc) l cols = Normal cols' →
  cols' !! m = match cols !! m, omap (chain_in hm hc m) l with
               | None, [] => None
               | o, cs => Some (default [] o ++ cs)
               end.
Proof.
  revert cols. induction l as [|key l IH]; intros cols; cbn [for_of].
  - intros [= <-]. simpl. destruct (cols !! m); [|done].
    by rewrite app_nil_r.
  - destruct (place hm hc cols key) as [cols1|] eqn:E1; [|done]. cbn [bind].
    intros Hl. rewrite (IH _ Hl). apply place_Normal in E1. subst cols1.
    cbn [omap list_omap]. generalize (omap (chain_in hm hc m) l) as cs.
    intros cs. unfold chain_in.
    destruct (column_of hm hc key) as [[m0 c0]|]; [|done].
    destruct (decide (m0 = m)) as [->|Hm].
    + rewrite lookup_insert_eq. simpl. rewrite <-app_assoc. simpl.
      by destruct (cols !! m).
    + by rewrite lookup_insert_ne.
Qed.

Lemma reorganizeMetrics_Normal runs out :
  reorganizeMetrics runs hm hc = Normal out →
  byRunId out = foldl (λ b run, assign b (run_id (info run)) run) ∅ runs ∧
  for_of (place hm hc) (foldl set_add [] (all_keys runs)) ∅
    = Normal (columns out).
Proof.
  unfold reorganizeMetrics. rewrite foldl_collect. cbn [fst snd].
  destruct (for_of _ _ _) as [cols|]; [|done]. by intros [= <-].
Qed.

(** What the returned [columns] holds under a metric name. *)
Lemma columns_lookup runs out m :
  reorganizeMetrics runs hm hc = Normal out →
  columns out !! m =
    match omap (chain_in hm hc m) (foldl set_add [] (all_keys runs)) with
    | [] => None
    | chains => Some chains
    end.
Proof.
  intros [_ H]%reorganizeMetrics_Normal.
  rewrite (for_of_place_lookup _ _ _ m H), lookup_empty.
  by destruct (omap _ _).
Qed.

Lemma chain_in_Some m key c :
  chain_in hm hc m key = Some c ↔
    key = key_of c m ∧ length (split (key_of c m)) = 2%nat ∧
    c ≠ "system" ∧ (m ∉ hm) ∧ (c ∉ hc).
Proof.
  unfold chain_in, column_of. split.
  - destruct (split key) as [|c' [|m' [|??]]] eqn:Hs; try done.
    case_bool_decide as H; [|done].
    destruct (decide (m' = m)) as [->|]; [|done]. intros [= ->].
    apply split_pair_iff in Hs as [-> ?]. by destruct H as (?&?&?).
  - intros (-> & Hlen & H). rewrite (split_key_of _ _ Hlen).
    rewrite bool_decide_true by done. by rewrite decide_True.
Qed.

(** Membership in a column group. *)
Lemma columns_elem_of runs out m c :
  reorganizeMetrics runs hm hc = Normal out →
  (∃ chains, columns out !! m = Some chains ∧ c ∈ chains) ↔
    key_of c m ∈ all_keys runs ∧ length (split (key_of c m)) = 2%nat ∧
    c ≠ "system" ∧ (m ∉ hm) ∧ (c ∉ hc).
Proof.
  intros H. rewrite (columns_lookup _ _ m H).
  transitivity (c ∈ omap (chain_in hm hc m) (foldl set_add [] (all_keys runs))).
  { destruct (omap _ _) eqn:E; [|naive_solver].
    split; [by intros (?&?&?)|by intros ?%elem_of_nil]. }
  rewrite list_elem_of_omap. setoid_rewrite elem_of_foldl_set_add.
  setoid_rewrite chain_in_Some. setoid_rewrite elem_of_nil. naive_solver.
Qed.

End Place.

(** ** When [reorganizeMetrics] returns *)
Section Returns.
Context (hm hc : list string).
Implicit Types (cols : gmap string (list string)) (l : list string).

(** No own property of [cols] bears an inherited name. *)
Let unshadowed cols : Prop :=
  ∀ m, is_Some (cols !! m) → inherited m = false.

Lemma place_Normal_unshadowed cols key cols' :
  unshadowed cols → place hm hc cols key = Normal cols' →
  unshadowed cols' ∧
  ∀ m c, column_of hm hc key = Some (m, c) → inherited m = false.
Proof.
  intros Hcols Hplace.
  assert (∀ m c, column_of hm hc key = Some (m, c) → inherited m = false)
    as Hkey.
  { intros m c Hmc. destruct (inherited m) eqn:Ei; [|done].
    assert (place hm hc cols key = Throw TypeError) as Ht; [|congruence].
    apply place_Throw. split; [done|]. exists m, c. split_and!; [done| |done].
    apply eq_None_not_Some. intros ?%Hcols. congruence. }
  split; [|done]. apply place_Normal in Hplace. subst cols'.
  destruct (column_of hm hc key) as [[m0 c0]|]; [|done].
  intros m. destruct (decide (m0 = m)) as [<-|Hm].
  - intros _. by eapply Hkey.
  - rewrite lookup_insert_ne by done. apply Hcols.
Qed.

Lemma for_of_place_Throw l cols e :
  unshadowed cols →
  for_of (place hm hc) l cols = Throw e ↔
    e = TypeError ∧
    ∃ key m c, key ∈ l ∧ column_of hm hc key = Some (m, c)
               ∧ inherited m = true.
Proof.
  revert cols. induction l as [|key l IH]; intros cols Hcols; cbn [for_of].
  - split; [done|]. by intros (_&?&?&?&?%elem_of_nil&_).
  - destruct (place hm hc cols key) as [cols1|e1] eqn:E1; cbn [bind].
    + destruct (place_Normal_unshadowed _ _ _ Hcols E1) as [H1 Hkey].
      rewrite (IH _ H1). split.
      * intros (->&k&m&c&?&?&?). split; [done|]. exists k, m, c.
        split_and!; [by right|done..].
      * intros (->&k&m&c&[->|?]%elem_of_cons&Hk&Hm).
        { apply Hkey in Hk. congruence. }
        split; [done|]. by exists k, m, c.
    + apply place_Throw in E1 as (->&m&c&?&_&?). split.
      * intros [= <-]. split; [done|]. exists key, m, c.
        split_and!; [by left|done..].
      * by intros [-> _].
Qed.

(** [reorganizeMetrics] throws exactly when some key that would be shown
    has a metric name that every object inherits; its only error is the
    [TypeError] of line 38. *)
Lemma reorganizeMetrics_Throw runs e :
  reorganizeMetrics runs hm hc = Throw e ↔
    e = TypeError ∧
    ∃ c m, key_of c m ∈ all_keys runs ∧ length (split (key_of c m)) = 2%nat
           ∧ c ≠ "system" ∧ (m ∉ hm) ∧ (c ∉ hc) ∧ inherited m = true.
Proof.
  unfold reorganizeMetrics. rewrite foldl_collect. cbn [fst snd].
  transitivity (for_of (place hm hc) (foldl set_add [] (all_keys runs)) ∅
                = Throw e).
  { destruct (for_of _ _ _); simpl; split; congruence. }
  rewrite for_of_place_Throw by (intros m [? ?]; by rewrite lookup_empty in *).
  split.
  - intros (->&k&m&c&Hk&Hmc&Hm). split; [done|]. exists c, m.
    apply elem_of_foldl_set_add in Hk as [?%elem_of_nil|Hk]; [done|].
    assert (chain_in hm hc m k = Some c) as (->&?&?&?&?)%chain_in_Some.
    { unfold chain_in. rewrite Hmc. by rewrite decide_True. }
    done.
  - intros (->&c&m&Hk&Hlen&Hc&Hm&Hc'&Hi). split; [done|].
    exists (key_of c m), m, c. split_and!; [|  |done].
    + apply elem_of_foldl_set_add. by right.
    + unfold column_of. rewrite (split_key_of _ _ Hlen).
      by rewrite bool_decide_true.
Qed.

Lemma reorganizeMetrics_returns runs :
  (∀ c m, key_of c m ∈ all_keys runs → length (split (key_of c m)) = 2%nat →
          c ≠ "system" → m ∉ hm → c ∉ hc → inherited m = false) →
  ∃ out, reorganizeMetrics runs hm hc = Normal out.
Proof.
  intros H. destruct (reorganizeMetrics runs hm hc) as [out|e] eqn:E;
    [by eexists|].
  apply reorganizeMetrics_Throw in E as (_&c&m&?&?&?&?&?&Hi).
  rewrite (H c m) in Hi by done. done.
Qed.

End Returns.

(** ** Order and multiplicity within a column group *)
Section Order.
Context (hm hc : list string) (m : string).
Implicit Types (l : list string).

Lemma NoDup_omap_chain_in l : NoDup l → NoDup (omap (chain_in hm hc m) l).
Proof.
  induction 1 as [|key l Hkey _ IH]; cbn [omap list_omap]; [constructor|].
  destruct (chain_in hm hc m key) as [c|] eqn:E; [|done].
  constructor; [|done]. intros (k&Hk&Ek)%list_elem_of_omap.
  apply chain_in_Some in E as [-> _]. apply chain_in_Some in Ek as [-> _].
  done.
Qed.

Lemma before_omap_chain_in l c1 c2 :
  chain_in hm hc m (key_of c1 m) = Some c1 →
  chain_in hm hc m (key_of c2 m) = Some c2 →
  before c1 c2 (omap (chain_in hm hc m) l) ↔
    before (key_of c1 m) (key_of c2 m) l.
Proof.
  intros F1 F2. induction l as [|key l IH]; [done|].
  cbn [omap list_omap]. rewrite (before_cons _ _ key).
  assert (c2 ∈ omap (chain_in hm hc m) l ↔ key_of c2 m ∈ l) as Hin.
  { rewrite list_elem_of_omap. split; [|by eauto].
    by intros (k&?&[-> _]%chain_in_Some). }
  destruct (chain_in hm hc m key) as [b|] eqn:E.
  - rewrite before_cons, IH, Hin.
    assert (∀ c, chain_in hm hc m (key_of c m) = Some c →
                 b = c ↔ key = key_of c m) as Hb.
    { intros c F. split; [intros <-; by apply chain_in_Some in E as [-> _]|].
      intros ->. congruence. }
    rewrite (Hb c1 F1), (Hb c2 F2).
    assert (c1 ≠ c2 ↔ key_of c1 m ≠ key_of c2 m) as ->; [|done].
    split; [|congruence]. intros Hne Heq. rewrite Heq in F1. congruence.
  - rewrite IH. split; [|by intros [(?&_)|(_&_&?)]; [congruence|]].
    intros ?. right. split_and!; [congruence..|done].
Qed.

End Order.

(** ** Claims about [reorganizeMetrics] *)

(** Whenever [reorganizeMetrics] returns, chain [c] is in [columns[m]]
    exactly when some run has the key [c/m], the key has two segments, [c] is
    not "system" and neither [m] nor [c] is hidden. *)
Lemma columns_contains_iff runs hm hc out c m :
  reorganizeMetrics runs hm hc = Normal out →
  (∃ chains, columns out !! m = Some chains ∧ c ∈ chains) ↔
    (∃ run, run ∈ runs ∧ key_of c m ∈ keys (metrics (data run)))
    ∧ length (split (key_of c m)) = 2%nat
    ∧ c ≠ "system" ∧ (m ∉ hm) ∧ (c ∉ hc).
Proof. intros H. by rewrite (columns_elem_of _ _ _ _ _ _ H), elem_of_all_keys. Qed.

(** C1, on an input the code fails on: the only run reports the key
    "attack/toString", which splits into exactly two segments, has a first
    segment other than "system" and is hidden by neither list, so the claim
    puts chain "attack" under metric "toString"; [reorganizeMetrics] throws a
    TypeError instead (line 37 finds "toString" in the empty [columns] through
    its prototype, line 38 calls [push] on a function) and returns no
    [columns] at all. *)
Theorem C1_inherited_metric_name_throws :
  let runs := [Sample.run "r1" "first" [("attack/toString", Sample.half)]] in
  ((∃ run, run ∈ runs ∧ key_of "attack" "toString" ∈ keys (metrics (data run)))
   ∧ length (split (key_of "attack" "toString")) = 2%nat
   ∧ "attack" ≠ "system" ∧ ("toString" ∉ @nil string) ∧ ("attack" ∉ @nil string))
  ∧ reorganizeMetrics runs [] [] = Throw TypeError.
Proof.
  intros runs. split; [|by vm_compute].
  split_and!; try done; try (by intros ?%elem_of_nil).
  exists (Sample.run "r1" "first" [("attack/toString", Sample.half)]).
  split; [by left|]. by left.
Qed.

(** C3: in what [reorganizeMetrics] returns, each chain occurs at most once
    in [columns[m]], and for two chains of [columns[m]], [c1] precedes [c2]
    exactly when the key [c1/m] is met before the key [c2/m] for the first
    time while iterating the runs in order and each run's keys in enumeration
    order. *)
Theorem C3_columns_first_seen_order runs hm hc out m chains :
  reorganizeMetrics runs hm hc = Normal out →
  columns out !! m = Some chains →
  NoDup chains ∧
  ∀ c1 c2, c1 ∈ chains → c2 ∈ chains →
    before c1 c2 chains ↔ before (key_of c1 m) (key_of c2 m) (all_keys runs).
Proof.
  intros H. rewrite (columns_lookup _ _ _ _ m H).
  pose proof (NoDup_omap_chain_in hm hc m _
                (NoDup_foldl_set_add (all_keys runs) [] (NoDup_nil_2))) as Hnd.
  destruct (omap _ _) as [|c cs] eqn:E; [done|]. intros [= <-].
  split; [done|]. intros c1 c2 H1 H2. rewrite <-E in *.
  apply list_elem_of_omap in H1 as (k1&_&F1). pose proof F1 as G1.
  apply chain_in_Some in G1 as [-> _].
  apply list_elem_of_omap in H2 as (k2&_&F2). pose proof F2 as G2.
  apply chain_in_Some in G2 as [-> _].
  by rewrite before_omap_chain_in, before_foldl_set_add.
Qed.

Lemma C3_columns_first_seen_order_witness :
  ∃ out,
    reorganizeMetrics [Sample.baseline; Sample.partial] [] [] = Normal out
    ∧ columns out !! "accuracy" = Some ["attack"; "defense"]
    ∧ NoDup ["attack"; "defense"]
    ∧ (before "attack" "defense" ["attack"; "defense"] ↔
       before (key_of "attack" "accuracy") (key_of "defense" "accuracy")
         (all_keys [Sample.baseline; Sample.partial])).
Proof.
  eexists. split; [by vm_compute|]. split; [by vm_compute|].
  pose proof (C3_columns_first_seen_order
                [Sample.baseline; Sample.partial] [] [] _ "accuracy"
                ["attack"; "defense"] eq_refl eq_refl) as [Hnd Hord].
  split; [exact Hnd|].
  apply Hord; [by left|by right; left].
Defined.

(** C10: every metric name that is a key of the returned [columns] maps to a
    non-empty list of chains. *)
Theorem C10_column_groups_nonempty runs hm hc out m chains :
  reorganizeMetrics runs hm hc = Normal out →
  columns out !! m = Some chains →
  chains ≠ [].
Proof.
  intros H. rewrite (columns_lookup _ _ _ _ m H).
  destruct (omap _ _); [done|]. by intros [= <-].
Qed.

Lemma C10_column_groups_nonempty_witness :
  ∃ out,
    reorganizeMetrics [Sample.baseline; Sample.partial] ["accuracy"] [] = Normal out
    ∧ columns out !! "loss" = Some ["attack"]
    ∧ ["attack"] ≠ [].
Proof.
  eexists. split; [by vm_compute|]. split; [by vm_compute|].
  exact (C10_column_groups_nonempty
           [Sample.baseline; Sample.partial] ["accuracy"] [] _ "loss"
           ["attack"] eq_refl eq_refl).
Defined.

(** What the returned [byRunId] holds: the run stored last under the
    identifier, except under ["__proto__"], where nothing is stored. *)
Lemma byRunId_lookup runs hm hc out id :
  reorganizeMetrics runs hm hc = Normal out →
  byRunId out !! id =
    if decide (id = "__proto__") then None else last_with_id id runs.
Proof.
  intros [-> _]%reorganizeMetrics_Normal.
  rewrite lookup_foldl_assign, lookup_empty.
  case_decide; [done|]. by destruct (last_with_id id runs).
Qed.

Lemma last_with_id_Some id runs run :
  last_with_id id runs = Some run → run ∈ runs ∧ run_id (info run) = id.
Proof.
  unfold last_with_id. intros H%last_Some_elem_of.
  apply list_elem_of_filter in H. naive_solver.
Qed.

Lemma byRunId_elem_of runs hm hc out id run :
  reorganizeMetrics runs hm hc = Normal out →
  byRunId out !! id = Some run →
  run ∈ runs ∧ run_id (info run) = id.
Proof.
  intros H. rewrite (byRunId_lookup _ _ _ _ id H).
  case_decide; [done|]. apply last_with_id_Some.
Qed.

(** C4, on an input the code fails on: the second run's identifier is
    "__proto__", so the claim puts an entry for it in [byRunId]; the
    assignment of line 27 reaches the prototype setter instead and stores
    nothing, and [byRunId] holds the first run only. *)
Theorem C4_accessor_run_id_not_stored :
  let runs := [Sample.baseline; Sample.accessor] in
  (∃ run, run ∈ runs ∧ run_id (info run) = "__proto__")
  ∧ ∃ out, reorganizeMetrics runs [] [] = Normal out
           ∧ byRunId out = {["r1" := Sample.baseline]}.
Proof.
  intros runs. split.
  - exists Sample.accessor. split; [by right; left|done].
  - eexists. split; [by vm_compute|]. by vm_compute.
Qed.

(** With both calls returning, hiding more never adds a column entry and
    leaves [byRunId] as it is. *)
Lemma hiding_monotone runs hm hm' hc hc' out out' :
  hm ⊆ hm' → hc ⊆ hc' →
  reorganizeMetrics runs hm hc = Normal out →
  reorganizeMetrics runs hm' hc' = Normal out' →
  byRunId out' = byRunId out
  ∧ ∀ m c chains', columns out' !! m = Some chains' → c ∈ chains' →
      ∃ chains, columns out !! m = Some chains ∧ c ∈ chains.
Proof.
  intros Hm Hc H H'. split.
  - apply reorganizeMetrics_Normal in H as [-> _].
    by apply reorganizeMetrics_Normal in H' as [-> _].
  - intros m c chains' Hl Hin.
    apply (columns_elem_of _ _ _ _ _ _ H).
    assert (∃ chains, columns out' !! m = Some chains ∧ c ∈ chains) as Hex
      by eauto.
    apply (columns_elem_of _ _ _ _ _ _ H') in Hex as (?&?&?&Hm'&Hc').
    split_and!; [done..| |]; intros ?; [apply Hm'|apply Hc']; auto.
Qed.

(** C9, on an input the code fails on: with "toString" hidden the call
    returns and shows chain "attack" under "accuracy"; with the smaller,
    empty hidden list the same runs make it throw, so the entry shown under
    the larger list is not present under the smaller one, and no [byRunId]
    is returned either.  The defect is the one met under C1. *)
Theorem C9_unhiding_inherited_name_throws :
  let runs := [Sample.shadowing] in
  ([] ⊆ ["toString"])
  ∧ (∃ out', reorganizeMetrics runs ["toString"] [] = Normal out'
             ∧ columns out' !! "accuracy" = Some ["attack"])
  ∧ reorganizeMetrics runs [] [] = Throw TypeError.
Proof.
  intros runs. split_and!.
  - by intros ? ?%elem_of_nil.
  - eexists. split; by vm_compute.
  - by vm_compute.
Qed.

(** ** The table cell *)

Lemma get_None {V} (o : list (string * V)) k : k ∉ keys o → get o k = None.
Proof.
  unfold keys. induction o as [|[k' v] o IH]; [done|].
  rewrite fmap_cons, not_elem_of_cons. intros [Hne Hk]. cbn [get fst] in *.
  destruct (String.eqb_spec k' k) as [->|_]; [done|auto].
Qed.

(** C2: whenever [reorganizeMetrics] shows chain [c] under metric [m] and a
    run of [byRunId] lacks the key [c/m], another run of the list reports
    that key, and the text of the run's cell for [(m, c)] is not computed:
    the expression of line 151 throws a TypeError.  The witness gives such a
    list of runs. *)
Theorem C2_missing_metric_cell_throws
    toStr runs hm hc out id run c m chains precision :
  reorganizeMetrics runs hm hc = Normal out →
  byRunId out !! id = Some run →
  columns out !! m = Some chains → c ∈ chains →
  key_of c m ∉ keys (metrics (data run)) →
  run ∈ runs
  ∧ (∃ other, other ∈ runs ∧ other ≠ run
              ∧ key_of c m ∈ keys (metrics (data other)))
  ∧ get (metrics (data run)) (key_of c m) = None
  ∧ TableCell toStr run c m precision = Throw TypeError.
Proof.
  intros H Hrun Hcol Hc Hkey.
  destruct (byRunId_elem_of _ _ _ _ _ _ H Hrun) as [Hin _].
  split_and!; [done| |by apply get_None|].
  - assert (∃ chains, columns out !! m = Some chains ∧ c ∈ chains) as Hex
      by eauto.
    apply (columns_contains_iff _ _ _ _ _ _ H) in Hex as [(other&?&?) _].
    exists other. split_and!; [done| |done]. by intros ->.
  - unfold TableCell. fold (key_of c m). by rewrite get_None.
Qed.

Lemma C2_missing_metric_cell_throws_witness :
  ∃ out,
    reorganizeMetrics [Sample.baseline; Sample.partial] [] [] = Normal out
    ∧ byRunId out !! "r2" = Some Sample.partial
    ∧ columns out !! "accuracy" = Some ["attack"; "defense"]
    ∧ (key_of "attack" "accuracy" ∉ keys (metrics (data Sample.partial)))
    ∧ Sample.partial ∈ [Sample.baseline; Sample.partial]
    ∧ (∃ other, other ∈ [Sample.baseline; Sample.partial]
                ∧ other ≠ Sample.partial
                ∧ key_of "attack" "accuracy" ∈ keys (metrics (data other)))
    ∧ get (metrics (data Sample.partial)) (key_of "attack" "accuracy") = None
    ∧ TableCell (λ _, "") Sample.partial "attack" "accuracy" 2
      = Throw TypeError.
Proof.
  assert (key_of "attack" "accuracy" ∉ keys (metrics (data Sample.partial)))
    as Hkey.
  { intros [[=]|[[=]|[]%elem_of_nil]%elem_of_cons]%elem_of_cons. }
  eexists. split; [by vm_compute|]. split; [by vm_compute|].
  split; [by vm_compute|]. split; [exact Hkey|].
  exact (C2_missing_metric_cell_throws (λ _, "")
            [Sample.baseline; Sample.partial] [] [] _ "r2" Sample.partial
            "attack" "accuracy" ["attack"; "defense"] 2 eq_refl eq_refl eq_refl
            ltac:(by left) Hkey).
Defined.

(** ** The route table *)

Lemma routes_named :
  Routes.named =
    [ ("index", "/"); ("single-run", "/run/:id");
      ("single-run-details", "/run/:id");
      ("single-run-metrics", "/run/:id/metrics");
      ("single-run-params", "/run/:id/parameters");
      ("single-run-pipeline", "/run/:id/pipeline");
      ("single-run-artifacts", "/run/:id/artifacts");
      ("compare-runs", "/compare");
      ("compare-runs-metrics", "/compare/metrics");
      ("compare-runs-diff", "/compare/diff") ].
Proof. reflexivity. Qed.

(** C6, as the route table has it: the ten route names occur exactly once
    each and each resolves to exactly one path; 'single-run' and
    'single-run-details' resolve to the same path, "/run/:id", and these two
    are the only distinct names that share a path; 'single-run' redirects to
    'single-run-details', and the empty child path of '/compare' redirects to
    'compare-runs-metrics'. *)
Theorem C6_route_table :
  Routes.names =
    [ "index"; "single-run"; "single-run-details"; "single-run-metrics";
      "single-run-params"; "single-run-pipeline"; "single-run-artifacts";
      "compare-runs"; "compare-runs-metrics"; "compare-runs-diff" ]
  ∧ NoDup Routes.names
  ∧ (∀ n, n ∈ Routes.names → ∃ p, Routes.resolve n = [p])
  ∧ Routes.resolve "single-run" = ["/run/:id"]
  ∧ Routes.resolve "single-run-details" = ["/run/:id"]
  ∧ (∀ n1 n2, n1 ∈ Routes.names → n2 ∈ Routes.names → n1 ≠ n2 →
       Routes.resolve n1 = Routes.resolve n2 →
       (n1 = "single-run" ∧ n2 = "single-run-details")
       ∨ (n1 = "single-run-details" ∧ n2 = "single-run"))
  ∧ Routes.redirect_of "single-run" = Some "single-run-details"
  ∧ Routes.child_redirect "/compare" "" = Some "compare-runs-metrics".
Proof.
  assert (Routes.names =
    [ "index"; "single-run"; "single-run-details"; "single-run-metrics";
      "single-run-params"; "single-run-pipeline"; "single-run-artifacts";
      "compare-runs"; "compare-runs-metrics"; "compare-runs-diff" ]) as Hn
    by reflexivity.
  rewrite Hn. split_and!; try reflexivity.
  - compute_done.
  - intros n Hin. repeat (apply elem_of_cons in Hin as [->|Hin]);
      [by eexists..|by apply elem_of_nil in Hin].
  - intros n1 n2 H1 H2.
    repeat (apply elem_of_cons in H1 as [->|H1]);
      try (by apply elem_of_nil in H1);
      repeat (apply elem_of_cons in H2 as [->|H2]);
      try (by apply elem_of_nil in H2);
      intros Hne Heq; try done; auto.
Qed.

(** C6 as stated fails: two distinct route names resolve to one path, so
    the resolved paths are not unique to their names. *)
Lemma C6_two_names_share_a_path :
  ¬ (∀ n1 n2, n1 ∈ Routes.names → n2 ∈ Routes.names → n1 ≠ n2 →
       Routes.resolve n1 ≠ Routes.resolve n2).
Proof.
  intros H.
  apply (H "single-run" "single-run-details"); [|  |done|reflexivity].
  - by right; left.
  - by right; right; left.
Qed.

(** C7: the tab bar declares six tabs with these destinations, in this
    order; three of the destinations name no registered route, and two
    registered routes are the destination of no tab. *)
Theorem C7_tabs_and_routes :
  SingleRun.dest <$> SingleRun.tabs =
    [ "single-run-details"; "single-run-metrics"; "single-run-runtime";
      "single-run-params"; "single-run-samples"; "single-run-flowchart" ]
  ∧ length SingleRun.tabs = 6%nat
  ∧ (∀ d, d ∈ ["single-run-runtime"; "single-run-samples";
               "single-run-flowchart"] → d ∉ Routes.names)
  ∧ (∀ n, n ∈ ["single-run-pipeline"; "single-run-artifacts"] →
       n ∈ Routes.names ∧ n ∉ SingleRun.dest <$> SingleRun.tabs).
Proof.
  split_and!; [reflexivity..| |].
  - intros d Hd. repeat (apply elem_of_cons in Hd as [->|Hd]);
      [compute_done..|by apply elem_of_nil in Hd].
  - intros n Hn. repeat (apply elem_of_cons in Hn as [->|Hn]);
      [split; compute_done..|by apply elem_of_nil in Hn].
Qed.

(** ** The single-run page *)
Section Watcher.
Import SingleRun.
Implicit Types (r : Run) (c : Instance).

Lemma run_None runs id :
  run runs id = None ↔ ∀ r, r ∈ runs → run_id (info r) ≠ id.
Proof.
  unfold run. rewrite head_None. split.
  - intros H r Hin Hid.
    assert (r ∈ filter (λ r, run_id (info r) = id) runs) as Hf
      by by apply list_elem_of_filter.
    rewrite H in Hf. by apply elem_of_nil in Hf.
  - intros H. apply elem_of_nil_inv. intros r [? ?]%list_elem_of_filter.
    by eapply H.
Qed.

Lemma run_Some runs id r :
  run runs id = Some r ↔
    ∃ l1 l2, runs = l1 ++ r :: l2 ∧ run_id (info r) = id
             ∧ ∀ r', r' ∈ l1 → run_id (info r') ≠ id.
Proof.
  unfold run. split.
  - induction runs as [|r0 runs IH]; [done|].
    destruct (decide (run_id (info r0) = id)) as [E|E].
    + rewrite filter_cons_True by done. intros [= ->].
      exists [], runs. split_and!; [done..|]. by intros ? ?%elem_of_nil.
    + rewrite filter_cons_False by done. intros (l1&l2&->&?&Hl1)%IH.
      exists (r0 :: l1), l2. split_and!; [done..|].
      by intros ? [->|?]%elem_of_cons; [|apply Hl1].
  - intros (l1&l2&->&Hid&Hl1). rewrite filter_app, filter_cons_True by done.
    assert (filter (λ r, run_id (info r) = id) l1 = []) as ->; [|done].
    apply elem_of_nil_inv. intros r' [? ?]%list_elem_of_filter.
    by eapply Hl1.
Qed.

Lemma pushed_update c runs id :
  pushed (update c runs id) =
    pushed c ++ match watched c, run runs id with
                | Some _, None => ["index"]
                | _, _ => []
                end.
Proof.
  unfold update. destruct (run runs id) as [r|] eqn:Er, (watched c) eqn:Ew.
  - case_decide; simpl; by rewrite app_nil_r.
  - rewrite decide_False by done. simpl. by rewrite app_nil_r.
  - by rewrite decide_False.
  - rewrite decide_True by done. by rewrite app_nil_r.
Qed.

End Watcher.

(** The resolution and one job of the watcher: the run is the first run of
    the collection whose identifier equals the [id] prop (none when no run
    bears it); a job pushes the route 'index' exactly when the resolution it
    remembers is a run and the new one is none; [setup] pushes nothing. *)
Lemma run_resolution_and_watcher_job :
  (∀ runs id r,
     SingleRun.run runs id = Some r ↔
       ∃ l1 l2, runs = l1 ++ r :: l2 ∧ run_id (info r) = id
                ∧ ∀ r', r' ∈ l1 → run_id (info r') ≠ id)
  ∧ (∀ runs id,
       SingleRun.run runs id = None ↔
         ∀ r, r ∈ runs → run_id (info r) ≠ id)
  ∧ (∀ c runs id,
       SingleRun.pushed (SingleRun.update c runs id) =
         SingleRun.pushed c
         ++ match SingleRun.watched c, SingleRun.run runs id with
            | Some _, None => ["index"]
            | _, _ => []
            end)
  ∧ (∀ runs id, SingleRun.pushed (SingleRun.setup runs id) = []).
Proof.
  split_and!.
  - apply run_Some.
  - apply run_None.
  - apply pushed_update.
  - done.
Qed.

(** C5, on an input the code fails on: the page is opened for an identifier
    no run bears, first on an empty store and then on the loaded one; the
    resolution yields no run at either time, so the claim has the component
    navigate to 'index'; the callback of lines 23-27, registered without the
    [immediate] option, is never called and nothing is pushed. *)
Theorem C5_absent_from_the_start_no_navigation :
  SingleRun.run [] "does-not-exist" = None
  ∧ SingleRun.run [Sample.baseline; Sample.partial] "does-not-exist" = None
  ∧ SingleRun.pushed
      (SingleRun.run_through ([], "does-not-exist")
         [([Sample.baseline; Sample.partial], "does-not-exist")]) = [].
Proof. split_and!; reflexivity. Qed.

(** ** Fixed-point formatting *)
Section Strings.
Implicit Types (s t u : string).

Lemma append_cons a s t : String a s +:+ t = String a (s +:+ t).
Proof. done. Qed.

Lemma append_assoc s t u : (s +:+ t) +:+ u = s +:+ t +:+ u.
Proof. induction s as [|a s IH]; [done|]. by rewrite !append_cons, IH. Qed.

Lemma append_nil_r s : s +:+ "" = s.
Proof. induction s as [|a s IH]; [done|]. by rewrite append_cons, IH. Qed.

Lemma length_append s t :
  String.length (s +:+ t) = (String.length s + String.length t)%nat.
Proof.
  induction s as [|a s IH]; [done|].
  rewrite append_cons. cbn [String.length]. by rewrite IH.
Qed.

Lemma length_zeros k : String.length (zeros k) = k.
Proof. induction k as [|k IH]; simpl; [done|]. by rewrite IH. Qed.

Lemma substring_all s : substring 0 (String.length s) s = s.
Proof. induction s as [|a s IH]; simpl; [done|]. by rewrite IH. Qed.

Lemma substring_cut s a :
  (a ≤ String.length s)%nat →
  substring 0 a s +:+ substring a (String.length s - a) s = s.
Proof.
  revert a. induction s as [|c s IH]; intros [|a] Ha; simpl in *;
    try done; try lia.
  - by rewrite substring_all.
  - rewrite append_cons, IH; [done|lia].
Qed.

Lemma length_substring s a b :
  (a + b ≤ String.length s)%nat → String.length (substring a b s) = b.
Proof.
  revert a b. induction s as [|c s IH]; intros [|a] [|b] H; simpl in *;
    try done; try lia.
  - rewrite IH; [done|lia].
  - apply IH. lia.
  - apply IH. lia.
Qed.

End Strings.

Section Decimal.

Lemma digit_value_digit d : 0 ≤ d < 10 → digit_value (digit d) = Some d.
Proof.
  intros Hd. assert (d ∈ [0; 1; 2; 3; 4; 5; 6; 7; 8; 9]) as Hin.
  { assert (d = 0 ∨ d = 1 ∨ d = 2 ∨ d = 3 ∨ d = 4 ∨ d = 5 ∨ d = 6 ∨ d = 7
            ∨ d = 8 ∨ d = 9) as H by lia.
    set_solver. }
  repeat (apply elem_of_cons in Hin as [->|Hin]); try reflexivity.
  by apply elem_of_nil in Hin.
Qed.

Lemma decimal_value_go_app v s t :
  decimal_value_go v (s +:+ t) =
    match decimal_value_go v s with
    | Some v' => decimal_value_go v' t
    | None => None
    end.
Proof.
  revert v. induction s as [|a s IH]; intros v; simpl; [done|].
  by destruct (digit_value a).
Qed.

Lemma decimal_go_acc fuel n acc :
  decimal_go fuel n acc = decimal_go fuel n "" +:+ acc.
Proof.
  revert n acc. induction fuel as [|fuel IH]; intros n acc; simpl; [done|].
  destruct (n <? 10); [done|].
  rewrite IH, (IH _ (String _ "")), append_assoc. done.
Qed.

Lemma decimal_value_decimal_go fuel n :
  0 ≤ n < 2 ^ Z.of_nat fuel →
  decimal_value (decimal_go fuel n "") = Some n.
Proof.
  unfold decimal_value. revert n.
  induction fuel as [|fuel IH]; intros n Hn.
  - simpl in *. f_equal; lia.
  - rewrite Nat2Z.inj_succ, Z.pow_succ_r in Hn by lia. cbn [decimal_go].
    destruct (Z.ltb_spec n 10) as [Hlt|Hge].
    + cbn [decimal_value_go]. rewrite Z.mod_small by lia.
      rewrite digit_value_digit by lia. f_equal; lia.
    + rewrite decimal_go_acc, decimal_value_go_app.
      rewrite IH by (split; [apply Z.div_pos|apply Z.div_lt_upper_bound]; lia).
      cbn [decimal_value_go].
      rewrite digit_value_digit by (apply Z.mod_pos_bound; lia).
      f_equal. pose proof (Z.div_mod n 10). lia.
Qed.

Lemma decimal_value_decimal n : 0 ≤ n → decimal_value (decimal n) = Some n.
Proof.
  intros Hn. apply decimal_value_decimal_go. split; [done|].
  rewrite Nat2Z.inj_succ, Z2Nat.id by apply Z.log2_nonneg.
  destruct (decide (n = 0)) as [->|]; [done|].
  apply Z.log2_spec. lia.
Qed.

Lemma decimal_value_zeros k s :
  decimal_value (zeros k +:+ s) = decimal_value s.
Proof. unfold decimal_value. induction k as [|k IH]; simpl; done. Qed.

Lemma scaled_pos m e f : 0 ≤ f → 0 ≤ (scaled m e f).1 ∧ 0 < (scaled m e f).2.
Proof.
  intros Hf. unfold scaled. destruct (Z.leb_spec 0 e); simpl.
  - split; [|lia]. apply Z.mul_nonneg_nonneg; [|lia].
    apply Z.mul_nonneg_nonneg; lia.
  - split; [apply Z.mul_nonneg_nonneg; lia|]. apply Z.pow_pos_nonneg; lia.
Qed.

(** [nearest] rounds to the closest integer, upwards from a half. *)
Lemma nearest_spec q :
  0 ≤ q.1 → 0 < q.2 →
  0 ≤ nearest q
  ∧ 2 * nearest q * q.2 - q.2 ≤ 2 * q.1 < 2 * nearest q * q.2 + q.2.
Proof.
  intros Hnum Hden. unfold nearest.
  pose proof (Z.div_mod (2 * q.1 + q.2) (2 * q.2)) as Hdm.
  pose proof (Z.mod_pos_bound (2 * q.1 + q.2) (2 * q.2)) as Hmod.
  split; [apply Z.div_pos; lia|]. nia.
Qed.

End Decimal.

Section Digits.

Lemma digit_value_range a d : digit_value a = Some d → 0 ≤ d < 10.
Proof.
  unfold digit_value. destruct (Z.leb_spec 48 (Z.of_nat (nat_of_ascii a)));
    [|done].
  destruct (Z.leb_spec (Z.of_nat (nat_of_ascii a)) 57); [|done].
  intros [= <-]. lia.
Qed.

Lemma decimal_value_go_shift v s :
  decimal_value_go v s =
    (λ r, v * 10 ^ Z.of_nat (String.length s) + r) <$> decimal_value s.
Proof.
  unfold decimal_value. revert v. induction s as [|a s IH]; intros v.
  - simpl. f_equal. lia.
  - cbn [decimal_value_go String.length]. destruct (digit_value a) as [d|];
      [|done].
    rewrite (IH (10 * v + d)), (IH (10 * 0 + d)).
    destruct (decimal_value_go 0 s) as [r|]; [|done]. simpl. f_equal.
    rewrite Nat2Z.inj_succ, Z.pow_succ_r by lia. lia.
Qed.

Lemma decimal_value_bound s r :
  decimal_value s = Some r → 0 ≤ r < 10 ^ Z.of_nat (String.length s).
Proof.
  revert r. induction s as [|a s IH]; intros r.
  - intros [= <-]. simpl. lia.
  - unfold decimal_value. cbn [decimal_value_go String.length].
    destruct (digit_value a) as [d|] eqn:Ed; [|done].
    apply digit_value_range in Ed. rewrite decimal_value_go_shift.
    destruct (decimal_value s) as [r'|]; [|done]. intros [= <-].
    specialize (IH r' eq_refl).
    rewrite Nat2Z.inj_succ, Z.pow_succ_r by lia. nia.
Qed.

(** The value of a digit string cut in two: the first part is the quotient
    and the second the remainder by the power of ten of the second's
    length. *)
Lemma decimal_value_cut s t n :
  decimal_value (s +:+ t) = Some n →
  decimal_value s = Some (n `div` 10 ^ Z.of_nat (String.length t))
  ∧ decimal_value t = Some (n `mod` 10 ^ Z.of_nat (String.length t)).
Proof.
  unfold decimal_value at 1. rewrite decimal_value_go_app.
  fold (decimal_value s). destruct (decimal_value s) as [vs|]; [|done].
  rewrite decimal_value_go_shift.
  destruct (decimal_value t) as [vt|] eqn:Et; [|done]. intros [= <-].
  apply decimal_value_bound in Et.
  assert (0 < 10 ^ Z.of_nat (String.length t)) by (apply Z.pow_pos_nonneg; lia).
  split; f_equal.
  - apply (Z.div_unique _ _ vs vt); lia.
  - apply (Z.mod_unique _ _ vs vt); lia.
Qed.

Lemma digit_not_zero d : 0 < d < 10 → digit d ≠ "0"%char.
Proof.
  intros Hd. assert (d ∈ [1; 2; 3; 4; 5; 6; 7; 8; 9]) as Hin.
  { assert (d = 1 ∨ d = 2 ∨ d = 3 ∨ d = 4 ∨ d = 5 ∨ d = 6 ∨ d = 7 ∨ d = 8
            ∨ d = 9) as H by lia.
    set_solver. }
  repeat (apply elem_of_cons in Hin as [->|Hin]); try done.
  by apply elem_of_nil in Hin.
Qed.

Lemma decimal_go_head fuel n acc :
  0 < n < 2 ^ Z.of_nat fuel →
  ∃ a rest, decimal_go fuel n acc = String a rest ∧ a ≠ "0"%char.
Proof.
  revert n acc. induction fuel as [|fuel IH]; intros n acc Hn.
  - simpl in Hn. lia.
  - rewrite Nat2Z.inj_succ, Z.pow_succ_r in Hn by lia. cbn [decimal_go].
    destruct (Z.ltb_spec n 10) as [Hlt|Hge].
    + eexists _, _. split; [done|]. rewrite Z.mod_small by lia.
      apply digit_not_zero. lia.
    + apply IH. split; [apply Z.div_str_pos|apply Z.div_lt_upper_bound]; lia.
Qed.

Lemma no_leading_zero_decimal n : 0 ≤ n → no_leading_zero (decimal n).
Proof.
  intros Hn. destruct (decide (n = 0)) as [->|Hne]; [by left|]. right.
  apply decimal_go_head. split; [lia|].
  rewrite Nat2Z.inj_succ, Z2Nat.id by apply Z.log2_nonneg.
  apply Z.log2_spec. lia.
Qed.

Lemma substring_none s : substring 0 0 s = "".
Proof. by destruct s. Qed.

Lemma substring_head a s j :
  substring 0 (S j) (String a s) = String a (substring 0 j s).
Proof. done. Qed.

End Digits.

Lemma toFixed_fixed_point toStr m e f :
  below_1e21 m e → 0 ≤ f ≤ 100 →
  ∃ int frac,
    toFixed toStr (Finite m e) f =
      Normal ((if m <? 0 then "-" else "") +:+ int
              +:+ (if f =? 0 then "" else "." +:+ frac))
    ∧ String.length frac = Z.to_nat f
    ∧ decimal_value (int +:+ frac) = Some (nearest (scaled m e f))
    ∧ no_leading_zero int.
Proof.
  intros Hx Hf. unfold toFixed, below_1e21 in *.
  destruct (Z.ltb_spec f 0); [lia|]. destruct (Z.ltb_spec 100 f); [lia|].
  cbn [orb]. destruct (Z.leb_spec (10 ^ 21 * (scaled m e 0).2) (scaled m e 0).1);
    [lia|].
  destruct (scaled_pos m e f) as [Hnum Hden]; [lia|].
  destruct (nearest_spec _ Hnum Hden) as [Hn _].
  pose proof (decimal_value_decimal _ Hn) as Hval.
  pose proof (no_leading_zero_decimal _ Hn) as Hlead.
  set (digits := decimal (nearest (scaled m e f))) in *.
  destruct (Z.eqb_spec f 0) as [->|Hf0].
  - exists digits, "". by rewrite !append_nil_r.
  - set (padded := if (String.length digits <=? Z.to_nat f)%nat
                   then zeros (Z.to_nat f + 1 - String.length digits) +:+ digits
                   else digits).
    assert (Z.to_nat f < String.length padded)%nat as Hlen.
    { unfold padded. destruct (Nat.leb_spec (String.length digits) (Z.to_nat f)).
      - rewrite length_append, length_zeros. lia.
      - done. }
    assert (decimal_value padded = Some (nearest (scaled m e f))) as Hpad.
    { unfold padded. destruct (_ <=? _)%nat; [|done].
      by rewrite decimal_value_zeros. }
    assert (no_leading_zero
              (substring 0 (String.length padded - Z.to_nat f) padded)) as Hint.
    { revert Hlen. unfold padded.
      destruct (Nat.leb_spec (String.length digits) (Z.to_nat f)) as [Hk|Hk].
      - rewrite length_append, length_zeros. intros _.
        replace (Z.to_nat f + 1 - String.length digits +
                 String.length digits - Z.to_nat f)%nat with 1%nat by lia.
        replace (Z.to_nat f + 1 - String.length digits)%nat
          with (S (Z.to_nat f - String.length digits)) by lia.
        left. cbn [zeros]. by rewrite append_cons, substring_head, substring_none.
      - intros _. destruct Hlead as [E|(a&rest&E&Ha)].
        + rewrite E in Hk. simpl in Hk. lia.
        + rewrite E in *. cbn [String.length] in *.
          replace (S (String.length rest) - Z.to_nat f)%nat
            with (S (String.length rest - Z.to_nat f)) by lia.
          rewrite substring_head. right. by eexists _, _. }
    exists (substring 0 (String.length padded - Z.to_nat f) padded),
           (substring (String.length padded - Z.to_nat f) (Z.to_nat f) padded).
    split_and!; [done| | |done].
    + apply length_substring. lia.
    + pose proof (substring_cut padded (String.length padded - Z.to_nat f))
        as Hcut.
      replace (String.length padded - (String.length padded - Z.to_nat f))%nat
        with (Z.to_nat f) in Hcut by lia.
      rewrite Hcut by lia. done.
Qed.

(** The double of [Sample.d0_123456789] is the one closest to the decimal
    0.123456789: its mantissa has 53 bits and it lies within half a unit in
    the last place, 2^-57, of the decimal. *)
Remark d0_123456789_is_the_closest_double :
  Sample.d0_123456789 = Finite 8895999182988127 (-56)
  ∧ 2 ^ 52 ≤ 8895999182988127 < 2 ^ 53
  ∧ 2 * Z.abs (8895999182988127 * 10 ^ 9 - 123456789 * 2 ^ 56) ≤ 10 ^ 9.
Proof. split_and!; [done|lia..]. Qed.

(** C8, as the cell has it: a cell whose run has a finite value of magnitude
    below 10^21 for the column, rendered with a precision from 0 to 100,
    shows fixed-point decimal notation: a sign for a negative value, the
    integer digits without a superfluous leading zero and, unless the
    precision is 0, a point followed by exactly [precision] digits.  With [n]
    the integer closest to the magnitude of the value times 10^precision, the
    larger one from a half, the integer digits read as the quotient and the
    digits after the point as the remainder of [n] by 10^precision.  In
    particular the double 0.123456789 is rendered "0.12" with precision 2 and
    "0.1235" with precision 4. *)
Theorem C8_cell_fixed_point :
  (∀ toStr run chain metric m e precision,
     get (metrics (data run)) (key_of chain metric) = Some (Finite m e) →
     below_1e21 m e →
     0 ≤ precision ≤ 100 →
     ∃ int frac n,
       TableCell toStr run chain metric precision =
         Normal ((if m <? 0 then "-" else "") +:+ int
                 +:+ (if precision =? 0 then "" else "." +:+ frac))
       ∧ String.length frac = Z.to_nat precision
       ∧ decimal_value (int +:+ frac) = Some n
       ∧ no_leading_zero int
       ∧ decimal_value int = Some (n `div` 10 ^ precision)
       ∧ decimal_value frac = Some (n `mod` 10 ^ precision)
       ∧ let q := scaled m e precision in
         2 * n * q.2 - q.2 ≤ 2 * q.1 < 2 * n * q.2 + q.2)
  ∧ (∀ toStr,
       TableCell toStr Sample.measured "attack" "accuracy" 2 = Normal "0.12"
       ∧ TableCell toStr Sample.measured "attack" "accuracy" 4 = Normal "0.1235").
Proof.
  split.
  - intros toStr run chain metric m e precision Hget Hx Hp.
    destruct (toFixed_fixed_point toStr m e precision Hx Hp)
      as (int&frac&Hfix&Hlen&Hval&Hlead).
    exists int, frac, (nearest (scaled m e precision)).
    destruct (decimal_value_cut _ _ _ Hval) as [Hint Hfrac].
    rewrite Hlen, Z2Nat.id in Hint, Hfrac by lia.
    split_and!; [|done..|].
    + unfold TableCell. fold (key_of chain metric). by rewrite Hget.
    + destruct (scaled_pos m e precision) as [Hnum Hden]; [lia|].
      apply (nearest_spec _ Hnum Hden).
  - intros toStr. split; by vm_compute.
Qed.

Lemma C8_cell_fixed_point_witness :
  get (metrics (data Sample.baseline)) (key_of "defense" "accuracy")
    = Some (Finite 3 (-2))
  ∧ below_1e21 3 (-2)
  ∧ 0 ≤ 1 ≤ 100
  ∧ ∃ int frac n,
      TableCell (λ _, "") Sample.baseline "defense" "accuracy" 1 =
        Normal ("" +:+ int +:+ "." +:+ frac)
      ∧ String.length frac = 1%nat
      ∧ decimal_value (int +:+ frac) = Some n
      ∧ no_leading_zero int
      ∧ decimal_value int = Some (n `div` 10 ^ 1)
      ∧ decimal_value frac = Some (n `mod` 10 ^ 1)
      ∧ 2 * n * 4 - 4 ≤ 2 * 30 < 2 * n * 4 + 4.
Proof.
  assert (below_1e21 3 (-2)) as Hx by (by vm_compute).
  assert (0 ≤ 1 ≤ 100) as Hp by lia.
  split_and!; [done..|].
  exact (proj1 C8_cell_fixed_point (λ _, "") Sample.baseline "defense"
           "accuracy" 3 (-2) 1 eq_refl Hx Hp).
Defined.

(** C8 as stated fails: the store does not clamp the precision, and with a
    precision of 101 the cell of a run that has the value shows no text: the
    expression throws a RangeError. *)
Lemma C8_precision_out_of_range_throws :
  get (metrics (data Sample.measured)) (key_of "attack" "accuracy")
    = Some Sample.d0_123456789
  ∧ TableCell (λ _, "") Sample.measured "attack" "accuracy" 101
    = Throw RangeError.
Proof. split; reflexivity. Qed.

(** * Further properties of the sources *)

(** ** [reorganizeMetrics]: outcome, hiding, growth *)

(** [reorganizeMetrics] has two outcomes: it throws a TypeError exactly when
    some run has a two-segment key whose chain is not "system", that neither
    list hides, and whose metric name is a property every object inherits;
    on every other input it returns. *)
Theorem reorganizeMetrics_outcome runs hm hc :
  (reorganizeMetrics runs hm hc = Throw TypeError ↔
     ∃ c m, key_of c m ∈ all_keys runs ∧ length (split (key_of c m)) = 2%nat
            ∧ c ≠ "system" ∧ (m ∉ hm) ∧ (c ∉ hc) ∧ inherited m = true)
  ∧ ((∃ out, reorganizeMetrics runs hm hc = Normal out) ↔
       ¬ ∃ c m, key_of c m ∈ all_keys runs
                ∧ length (split (key_of c m)) = 2%nat
                ∧ c ≠ "system" ∧ (m ∉ hm) ∧ (c ∉ hc) ∧ inherited m = true).
Proof.
  split.
  - rewrite reorganizeMetrics_Throw. naive_solver.
  - split.
    + intros [out Hout] Hbad.
      assert (reorganizeMetrics runs hm hc = Throw TypeError) as Ht
        by (apply reorganizeMetrics_Throw; by split).
      congruence.
    + intros Hgood. apply reorganizeMetrics_returns.
      intros c m ? ? ? ? ?. destruct (inherited m) eqn:Ei; [|done].
      destruct Hgood. by exists c, m.
Qed.

(** In what [reorganizeMetrics] returns, [byRunId] holds under each
    identifier other than "__proto__" the last run of the list that bears it,
    nothing under an identifier no run bears, and nothing under "__proto__". *)
Theorem byRunId_last_write_wins runs hm hc out :
  reorganizeMetrics runs hm hc = Normal out →
  byRunId out !! "__proto__" = None
  ∧ (∀ id, id ≠ "__proto__" → byRunId out !! id = last_with_id id runs)
  ∧ (∀ id, id ≠ "__proto__" →
       (∀ r, r ∈ runs → run_id (info r) ≠ id) → byRunId out !! id = None)
  ∧ (∀ l1 r l2, runs = l1 ++ r :: l2 → run_id (info r) ≠ "__proto__" →
       (∀ r', r' ∈ l2 → run_id (info r') ≠ run_id (info r)) →
       byRunId out !! run_id (info r) = Some r).
Proof.
  intros H. split_and!.
  - by rewrite (byRunId_lookup _ _ _ _ _ H).
  - intros id Hid. rewrite (byRunId_lookup _ _ _ _ _ H). by rewrite decide_False.
  - intros id Hid Hno. rewrite (byRunId_lookup _ _ _ _ _ H), decide_False by done.
    destruct (last_with_id id runs) as [r|] eqn:E; [|done].
    apply last_with_id_Some in E as [? ?]. by destruct (Hno r).
  - intros l1 r l2 -> Hid Hl2.
    rewrite (byRunId_lookup _ _ _ _ _ H), decide_False by done.
    unfold last_with_id. rewrite filter_app, filter_cons_True by done.
    assert (filter (λ run, run_id (info run) = run_id (info r)) l2 = []) as ->.
    { apply elem_of_nil_inv. intros r' [? ?]%list_elem_of_filter.
      by eapply Hl2. }
    by rewrite last_snoc.
Qed.

Lemma byRunId_last_write_wins_witness :
  ∃ out,
    reorganizeMetrics [Sample.baseline; Sample.partial; Sample.accessor] [] []
      = Normal out
    ∧ byRunId out !! "__proto__" = None
    ∧ byRunId out !! "r2" = Some Sample.partial.
Proof.
  eexists. split; [by vm_compute|].
  destruct (byRunId_last_write_wins
              [Sample.baseline; Sample.partial; Sample.accessor] [] [] _ eq_refl)
    as (H1&H2&_&_).
  split; [exact H1|]. by rewrite H2.
Defined.

(** Whenever [reorganizeMetrics] returns, chain [c] stands under metric name
    [m] in [columns] exactly when some run has the key [c/m], the key has
    exactly two segments, [c] is not "system" and neither list hides [m] or
    [c]; so no chain named "system", no hidden chain and no hidden metric is
    ever shown. *)
Theorem columns_show_exactly_the_visible_keys runs hm hc out :
  reorganizeMetrics runs hm hc = Normal out →
  (∀ c m,
     (∃ chains, columns out !! m = Some chains ∧ c ∈ chains) ↔
       (∃ run, run ∈ runs ∧ key_of c m ∈ keys (metrics (data run)))
       ∧ length (split (key_of c m)) = 2%nat
       ∧ c ≠ "system" ∧ (m ∉ hm) ∧ (c ∉ hc))
  ∧ (∀ m chains, columns out !! m = Some chains →
       (m ∉ hm) ∧ ("system" ∉ chains) ∧ ∀ c, c ∈ chains → c ∉ hc).
Proof.
  intros H. split; [intros c m; by apply columns_contains_iff|].
  intros m chains Hm.
  assert (∀ c, c ∈ chains → c ≠ "system" ∧ (m ∉ hm) ∧ (c ∉ hc)) as Hall.
  { intros c Hc.
    assert (∃ chains, columns out !! m = Some chains ∧ c ∈ chains) as Hex
      by eauto.
    by apply (columns_contains_iff _ _ _ _ _ _ H) in Hex as (_&_&?&?&?). }
  split_and!.
  - pose proof (Hne := columns_lookup hm hc runs out m H).
    rewrite Hm in Hne. destruct chains as [|c cs].
    + by destruct (omap _ _).
    + apply (Hall c). by left.
  - intros Hs. by destruct (Hall _ Hs) as [? _].
  - intros c Hc. by destruct (Hall _ Hc) as (_&_&?).
Qed.

Lemma columns_show_exactly_the_visible_keys_witness :
  ∃ out,
    reorganizeMetrics [Sample.baseline; Sample.partial] [] ["attack"] = Normal out
    ∧ columns out !! "accuracy" = Some ["defense"]
    ∧ ("accuracy" ∉ @nil string) ∧ ("system" ∉ ["defense"])
    ∧ ∀ c, c ∈ ["defense"] → c ∉ ["attack"].
Proof.
  eexists. split; [by vm_compute|]. split; [by vm_compute|].
  exact (proj2 (columns_show_exactly_the_visible_keys
                  [Sample.baseline; Sample.partial] [] ["attack"] _ eq_refl)
           "accuracy" ["defense"] eq_refl).
Defined.

Section Hiding.
Context (hm hm' hc hc' : list string).

Lemma chain_in_hidden_more m key c :
  hm ⊆ hm' → hc ⊆ hc' →
  chain_in hm' hc' m key = Some c → chain_in hm hc m key = Some c.
Proof.
  intros Hm Hc. rewrite !chain_in_Some. intros (?&?&?&Hm'&Hc').
  split_and!; [done..| |]; intros ?; [apply Hm'|apply Hc']; auto.
Qed.

Lemma omap_sublist {A B} (f f' : A → option B) (l : list A) :
  (∀ x y, f' x = Some y → f x = Some y) →
  omap f' l `sublist_of` omap f l.
Proof.
  intros Hf. induction l as [|x l IH]; cbn [omap list_omap]; [done|].
  destruct (f' x) as [y|] eqn:E'.
  - rewrite (Hf _ _ E'). by apply sublist_skip.
  - destruct (f x); [by apply sublist_cons|done].
Qed.

Lemma for_of_ext {A S} (f g : S → A → completion S) l s :
  (∀ s x, f s x = g s x) → for_of f l s = for_of g l s.
Proof.
  intros Hfg. revert s. induction l as [|x l IH]; intros s; [done|].
  cbn [for_of]. rewrite Hfg. destruct (g s x); [apply IH|done].
Qed.

End Hiding.

(** Hiding more: when a call returns, the call with larger hidden lists
    returns too, with the same [byRunId], and each of its column groups is
    shown by the first call as well, with the chains that remain in their
    former order. *)
Theorem hiding_more_keeps_order runs hm hm' hc hc' out :
  hm ⊆ hm' → hc ⊆ hc' →
  reorganizeMetrics runs hm hc = Normal out →
  ∃ out',
    reorganizeMetrics runs hm' hc' = Normal out'
    ∧ byRunId out' = byRunId out
    ∧ ∀ m chains', columns out' !! m = Some chains' →
        ∃ chains, columns out !! m = Some chains ∧ chains' `sublist_of` chains.
Proof.
  intros Hm Hc H.
  destruct (reorganizeMetrics runs hm' hc') as [out'|e] eqn:H'.
  - exists out'. split; [done|]. split.
    + apply reorganizeMetrics_Normal in H as [-> _].
      by apply reorganizeMetrics_Normal in H' as [-> _].
    + intros m chains'.
      rewrite (columns_lookup _ _ _ _ m H), (columns_lookup _ _ _ _ m H').
      pose proof (omap_sublist (chain_in hm hc m) (chain_in hm' hc' m)
                    (foldl set_add [] (all_keys runs))
                    (λ k c, chain_in_hidden_more hm hm' hc hc' m k c Hm Hc))
        as Hsub.
      destruct (omap (chain_in hm' hc' m) _) as [|c' cs']; [done|].
      intros [= <-]. destruct (omap (chain_in hm hc m) _) as [|c cs].
      * by apply sublist_nil_r in Hsub.
      * by eexists.
  - apply reorganizeMetrics_Throw in H' as (_&c&m&?&?&?&Hm'&Hc'&?).
    assert (reorganizeMetrics runs hm hc = Throw TypeError) as Ht; [|congruence].
    apply reorganizeMetrics_Throw. split; [done|]. exists c, m.
    split_and!; [done..| | |done]; intros ?; [apply Hm'|apply Hc']; auto.
Qed.

Lemma hiding_more_keeps_order_witness :
  ∃ out out',
    reorganizeMetrics [Sample.baseline; Sample.partial] [] [] = Normal out
    ∧ reorganizeMetrics [Sample.baseline; Sample.partial] [] ["attack"]
      = Normal out'
    ∧ byRunId out' = byRunId out.
Proof.
  assert ([] ⊆ @nil string) as Hm by done.
  assert ([] ⊆ ["attack"]) as Hc by (by intros ? ?%elem_of_nil).
  destruct (hiding_more_keeps_order [Sample.baseline; Sample.partial]
              [] [] [] ["attack"] _ Hm Hc eq_refl) as (out'&H'&Hby&_).
  eexists _, out'. split; [reflexivity|]. by split.
Defined.

(** The hidden lists act as sets: two calls whose hidden lists have the same
    members, in whatever order and multiplicity, have the same outcome. *)
Theorem hidden_lists_act_as_sets runs hm hm' hc hc' :
  (∀ x, x ∈ hm ↔ x ∈ hm') → (∀ x, x ∈ hc ↔ x ∈ hc') →
  reorganizeMetrics runs hm hc = reorganizeMetrics runs hm' hc'.
Proof.
  intros Hm Hc. unfold reorganizeMetrics. f_equal.
  apply for_of_ext. intros cols key. unfold place, includes.
  destruct (split key) as [|c [|m [|??]]]; try done.
  by rewrite (bool_decide_ext _ _ (Hm m)), (bool_decide_ext _ _ (Hc c)).
Qed.

Lemma hidden_lists_act_as_sets_witness :
  reorganizeMetrics [Sample.baseline; Sample.partial] ["loss"; "accuracy"] []
  = reorganizeMetrics [Sample.baseline; Sample.partial]
      ["accuracy"; "loss"; "accuracy"] [].
Proof.
  apply hidden_lists_act_as_sets; [|done].
  intros x. rewrite !elem_of_cons, !elem_of_nil. tauto.
Defined.

Lemma foldl_set_add_prefix ks s : ∃ t, foldl set_add s ks = s ++ t.
Proof.
  revert s. induction ks as [|k ks IH]; intros s; cbn [foldl].
  - exists []. by rewrite app_nil_r.
  - destruct (IH (set_add s k)) as [t ->]. unfold set_add.
    case_bool_decide; [by eexists|]. exists (k :: t). by rewrite <-app_assoc.
Qed.

(** Growth: when the call on a list of runs extended by further runs returns,
    so does the call on the list itself; every column group of the shorter
    list is kept, its chains in place and new chains only appended; and the
    entry of [byRunId] under an identifier that none of the further runs bears
    is unchanged. *)
Theorem appending_runs_extends_columns runs more hm hc out' :
  reorganizeMetrics (runs ++ more) hm hc = Normal out' →
  ∃ out,
    reorganizeMetrics runs hm hc = Normal out
    ∧ (∀ m chains, columns out !! m = Some chains →
         ∃ extra, columns out' !! m = Some (chains ++ extra))
    ∧ (∀ id, (∀ r, r ∈ more → run_id (info r) ≠ id) →
         byRunId out' !! id = byRunId out !! id).
Proof.
  intros H'.
  assert (all_keys (runs ++ more) = all_keys runs ++ all_keys more) as Hkeys
    by apply flat_map_app.
  destruct (reorganizeMetrics runs hm hc) as [out|e] eqn:H.
  - exists out. split; [done|]. split.
    + intros m chains.
      rewrite (columns_lookup _ _ _ _ m H), (columns_lookup _ _ _ _ m H').
      rewrite Hkeys, foldl_app.
      destruct (foldl_set_add_prefix (all_keys more)
                  (foldl set_add [] (all_keys runs))) as [t ->].
      rewrite omap_app.
      destruct (omap _ (foldl set_add [] (all_keys runs))) as [|c cs];
        [done|].
      intros [= <-]. by eexists.
    + intros id Hid.
      rewrite (byRunId_lookup _ _ _ _ id H), (byRunId_lookup _ _ _ _ id H').
      case_decide; [done|]. unfold last_with_id. rewrite filter_app.
      assert (filter (λ run, run_id (info run) = id) more = []) as ->.
      { apply elem_of_nil_inv. intros r [? ?]%list_elem_of_filter.
        by eapply Hid. }
      by rewrite app_nil_r.
  - apply reorganizeMetrics_Throw in H as (_&c&m&Hk&?).
    assert (reorganizeMetrics (runs ++ more) hm hc = Throw TypeError) as Ht;
      [|congruence].
    apply reorganizeMetrics_Throw. split; [done|]. exists c, m.
    split; [|done]. rewrite Hkeys. apply elem_of_app. by left.
Qed.

Lemma appending_runs_extends_columns_witness :
  ∃ out out',
    reorganizeMetrics ([Sample.partial] ++ [Sample.baseline]) [] [] = Normal out'
    ∧ reorganizeMetrics [Sample.partial] [] [] = Normal out
    ∧ columns out !! "accuracy" = Some ["defense"]
    ∧ ∃ extra, columns out' !! "accuracy" = Some (["defense"] ++ extra).
Proof.
  destruct (appending_runs_extends_columns [Sample.partial] [Sample.baseline]
              [] [] _ eq_refl) as (out&H&Hcols&_).
  exists out. eexists. split; [reflexivity|]. split; [exact H|].
  assert (columns out !! "accuracy" = Some ["defense"]) as Hacc.
  { assert (Normal out = reorganizeMetrics [Sample.partial] [] []) as E
      by by rewrite H.
    vm_compute in E. by injection E as ->. }
  split; [exact Hacc|]. exact (Hcols _ _ Hacc).
Defined.

(** ** The cells of the comparison table *)

Lemma get_is_Some {V} (o : list (string * V)) k : is_Some (get o k) ↔ k ∈ keys o.
Proof.
  unfold keys. induction o as [|[k' v] o IH]; cbn [get].
  - split; [by intros [? ?]|by intros ?%elem_of_nil].
  - rewrite fmap_cons, elem_of_cons. cbn [fst].
    destruct (String.eqb_spec k' k) as [->|Hne].
    + split; [by left|by eexists].
    + rewrite IH. split; [by right|]. by intros [?|?]; [congruence|].
Qed.

Lemma toFixed_cases toStr x p :
  ((p < 0 ∨ 100 < p) ∧ toFixed toStr x p = Throw RangeError)
  ∨ (0 ≤ p ≤ 100 ∧ ∃ text, toFixed toStr x p = Normal text).
Proof.
  unfold toFixed.
  destruct (Z.ltb_spec p 0); [left; split; [lia|done]|].
  destruct (Z.ltb_spec 100 p); [left; split; [lia|done]|].
  right. split; [lia|]. cbn [orb].
  destruct x as [| |m e]; [by eexists..|].
  destruct (_ <=? _); [by eexists|]. destruct (p =? 0); by eexists.
Qed.

(** The outcome of a cell: a TypeError exactly when the run does not have the
    key of the column, a RangeError exactly when it has the key and the
    precision is outside 0..100, and a text exactly when it has the key and
    the precision is within 0..100, whatever the value (also NaN and the
    infinities). *)
Theorem TableCell_outcome toStr run chain metric precision :
  (TableCell toStr run chain metric precision = Throw TypeError ↔
     key_of chain metric ∉ keys (metrics (data run)))
  ∧ (TableCell toStr run chain metric precision = Throw RangeError ↔
       key_of chain metric ∈ keys (metrics (data run))
       ∧ (precision < 0 ∨ 100 < precision))
  ∧ ((∃ text, TableCell toStr run chain metric precision = Normal text) ↔
       key_of chain metric ∈ keys (metrics (data run))
       ∧ 0 ≤ precision ≤ 100).
Proof.
  unfold TableCell. fold (key_of chain metric).
  rewrite <-!get_is_Some.
  destruct (get (metrics (data run)) (key_of chain metric)) as [v|] eqn:E.
  - destruct (toFixed_cases toStr v precision) as [[Hp ->]|[Hp [text ->]]].
    + split_and!.
      * split; [done|]. intros []. by eexists.
      * split; [intros _; split; [by eexists|done]|done].
      * split; [by intros [? ?]|]. intros [_ ?]. lia.
    + split_and!.
      * split; [done|]. intros []. by eexists.
      * split; [done|]. intros [_ ?]. lia.
      * split; [intros _; split; [by eexists|done]|by eexists].
  - split_and!.
    + split; [by intros _ [? ?]|done].
    + split; [done|]. by intros [[? ?] _].
    + split; [by intros [? ?]|]. by intros [[? ?] _].
Qed.

Section Rows.
Import Template.
Context (toStr : Number → string) (baseline : option string) (precision : Z).
Implicit Types (cols : list (string * list string)) (rows : list (string * Run)).

Lemma elem_of_row_cells run cols cell :
  cell ∈ row_cells toStr run cols precision ↔
    ∃ m chains c, (m, chains) ∈ cols ∧ c ∈ chains
                  ∧ cell = TableCell toStr run c m precision.
Proof.
  unfold row_cells. rewrite list_elem_of_In, in_flat_map. split.
  - intros ([m chains]&Hin&Hc). apply list_elem_of_In in Hin, Hc.
    apply list_elem_of_fmap in Hc as (c&->&?). by exists m, chains, c.
  - intros (m&chains&c&Hin&Hc&->). exists (m, chains).
    split; [by apply list_elem_of_In|].
    apply list_elem_of_In, list_elem_of_fmap. by exists c.
Qed.

Lemma elem_of_TableBody cols rows row :
  row ∈ TableBody toStr baseline cols precision rows ↔
    ∃ id run, (id, run) ∈ rows
              ∧ row = TableRow toStr baseline cols precision (id, run).
Proof.
  unfold TableBody. rewrite list_elem_of_fmap. split.
  - intros ([id run]&->&?). by exists id, run.
  - intros (id&run&?&->). by exists (id, run).
Qed.

Lemma length_row_cells run cols :
  length (row_cells toStr run cols precision) = length (chain_headers cols).
Proof.
  unfold row_cells, chain_headers. induction cols as [|[m chains] cols IH];
    [done|].
  cbn [flat_map]. by rewrite !length_app, length_fmap, IH.
Qed.

Lemma sum_colspans cols :
  sum_list ((metric_headers cols).*2) = length (chain_headers cols).
Proof.
  unfold metric_headers, chain_headers.
  induction cols as [|[m chains] cols IH]; [done|].
  cbn [flat_map fmap list_fmap snd sum_list_with]. rewrite length_app.
  simpl in *. by rewrite IH.
Qed.

End Rows.

(** The table is rectangular for every enumeration of the columns: the
    [colspan]s of the first header row add up to the number of headers of the
    second, and every body row has that many metric cells. *)
Theorem table_is_rectangular toStr baseline cols precision rows :
  sum_list ((Template.metric_headers cols).*2)
    = length (Template.chain_headers cols)
  ∧ ∀ row, row ∈ Template.TableBody toStr baseline cols precision rows →
      length (Template.cells row) = length (Template.chain_headers cols).
Proof.
  split; [apply sum_colspans|].
  intros row (id&run&_&->)%elem_of_TableBody. apply length_row_cells.
Qed.

(** For what [reorganizeMetrics] returns and a precision within 0..100, every
    cell of the table body has a text exactly when every run of [byRunId] has
    the key of every shown column; a cell without a text is a TypeError. *)
Theorem cells_have_text_iff toStr runs hm hc out cols rows baseline precision :
  reorganizeMetrics runs hm hc = Normal out →
  cols ≡ₚ map_to_list (columns out) →
  rows ≡ₚ map_to_list (byRunId out) →
  0 ≤ precision ≤ 100 →
  ((∀ row cell,
      row ∈ Template.TableBody toStr baseline cols precision rows →
      cell ∈ Template.cells row → ∃ text, cell = Normal text)
   ↔ (∀ id run m chains c,
        byRunId out !! id = Some run → columns out !! m = Some chains →
        c ∈ chains → key_of c m ∈ keys (metrics (data run))))
  ∧ (∀ row e,
       row ∈ Template.TableBody toStr baseline cols precision rows →
       Throw e ∈ Template.cells row → e = TypeError).
Proof.
  intros H Hcols Hrows Hp.
  assert (∀ m chains, (m, chains) ∈ cols ↔ columns out !! m = Some chains)
    as Hc by (intros; by rewrite Hcols, elem_of_map_to_list).
  assert (∀ id run, (id, run) ∈ rows ↔ byRunId out !! id = Some run)
    as Hr by (intros; by rewrite Hrows, elem_of_map_to_list).
  split; [split|].
  - intros Hall id run m chains c Hid Hm Hin.
    destruct (Hall (Template.TableRow toStr baseline cols precision (id, run))
                (TableCell toStr run c m precision)) as [text Htext].
    + apply elem_of_TableBody. exists id, run. by rewrite Hr.
    + apply elem_of_row_cells. exists m, chains, c. by rewrite Hc.
    + apply (proj2 (proj2 (TableCell_outcome toStr run c m precision))).
      by eexists.
  - intros Hall row cell (id&run&Hid&->)%elem_of_TableBody
      (m&chains&c&Hm&Hin&->)%elem_of_row_cells.
    apply (TableCell_outcome toStr run c m precision). split; [|done].
    eapply Hall; [by apply Hr|by apply Hc|done].
  - intros row e (id&run&Hid&->)%elem_of_TableBody
      (m&chains&c&Hm&Hin&Hcell)%elem_of_row_cells.
    destruct e; [done|]. symmetry in Hcell.
    apply (TableCell_outcome toStr run c m precision) in Hcell as [_ ?]. lia.
Qed.

Lemma cells_have_text_iff_witness :
  let out := {| byRunId := <["r1" := Sample.baseline]> {["r2" := Sample.partial]};
                columns := {["accuracy" := ["defense"]]} |} in
  reorganizeMetrics [Sample.baseline; Sample.partial] [] ["attack"] = Normal out
  ∧ ∀ row cell,
      row ∈ Template.TableBody (λ _, "") None (map_to_list (columns out)) 2
              (map_to_list (byRunId out)) →
      cell ∈ Template.cells row → ∃ text, cell = Normal text.
Proof.
  intros out.
  assert (reorganizeMetrics [Sample.baseline; Sample.partial] [] ["attack"]
          = Normal out) as H by (by vm_compute).
  split; [exact H|].
  apply (cells_have_text_iff (λ _, "") [Sample.baseline; Sample.partial] []
           ["attack"] out _ _ None 2 H); [done|done|lia|].
  intros id run m chains c Hid Hm Hc. cbn [out byRunId columns] in Hid, Hm.
  apply lookup_singleton_Some in Hm as [<- <-].
  apply list_elem_of_singleton in Hc as ->.
  apply lookup_insert_Some in Hid as [[_ <-]|[_ Hid]]; [compute_done|].
  apply lookup_singleton_Some in Hid as [_ <-]. compute_done.
Defined.

(** Runs that all report the same keys give a table without a faulty cell:
    when every run has every key met in any run and the precision is within
    0..100, every cell of the table body has a text. *)
Theorem uniform_runs_give_full_table
    toStr runs hm hc out cols rows baseline precision :
  reorganizeMetrics runs hm hc = Normal out →
  cols ≡ₚ map_to_list (columns out) →
  rows ≡ₚ map_to_list (byRunId out) →
  0 ≤ precision ≤ 100 →
  (∀ run k, run ∈ runs → k ∈ all_keys runs → k ∈ keys (metrics (data run))) →
  ∀ row cell,
    row ∈ Template.TableBody toStr baseline cols precision rows →
    cell ∈ Template.cells row → ∃ text, cell = Normal text.
Proof.
  intros H Hcols Hrows Hp Huni.
  apply (cells_have_text_iff toStr runs hm hc out cols rows baseline precision
           H Hcols Hrows Hp).
  intros id run m chains c Hid Hm Hc.
  destruct (byRunId_elem_of _ _ _ _ _ _ H Hid) as [Hin _].
  apply Huni; [done|]. apply (columns_elem_of _ _ _ _ _ _ H). eauto.
Qed.

Lemma uniform_runs_give_full_table_witness :
  let runs := [Sample.partial; Sample.run "r5" "again" (metrics (data Sample.partial))] in
  ∃ out,
    reorganizeMetrics runs [] [] = Normal out
    ∧ ∀ row cell,
        row ∈ Template.TableBody (λ _, "") (Some "r5")
                (map_to_list (columns out)) 3 (map_to_list (byRunId out)) →
        cell ∈ Template.cells row → ∃ text, cell = Normal text.
Proof.
  intros runs. eexists. split; [reflexivity|].
  apply (uniform_runs_give_full_table (λ _, "") runs [] [] _ _ _ (Some "r5") 3
           eq_refl); [done|done|lia|].
  intros run k Hrun Hk.
  apply elem_of_all_keys in Hk as (r&Hr&Hk).
  repeat (apply elem_of_cons in Hrun as [->|Hrun]);
    repeat (apply elem_of_cons in Hr as [->|Hr]);
    try (by apply elem_of_nil in Hr); try (by apply elem_of_nil in Hrun);
    exact Hk.
Defined.

(** ** The Baseline button and the row link *)

Lemma filter_by_key_NoDup {A} (f : A → string) id (l : list A) :
  NoDup (f <$> l) →
  length (filter (λ x, f x = id) l) = if decide (id ∈ f <$> l) then 1%nat else 0%nat.
Proof.
  induction l as [|x l IH]; [done|].
  rewrite fmap_cons, NoDup_cons. intros [Hx Hl]. specialize (IH Hl).
  destruct (decide (f x = id)) as [<-|Hne].
  - rewrite filter_cons_True by done. rewrite decide_True by (by left).
    cbn [length]. rewrite IH. by rewrite decide_False.
  - rewrite filter_cons_False by done. rewrite IH.
    destruct (decide (id ∈ f <$> l)) as [Hin|Hin].
    + rewrite decide_True; [done|by right].
    + rewrite decide_False; [done|]. by intros [?|?]%elem_of_cons.
Qed.

(** At most one row shows an active Baseline button: exactly one when the
    store's baseline is the identifier of an entry of [byRunId], none
    otherwise; and in every row the link leads to the run whose identifier
    the button toggles. *)
Theorem one_baseline_row toStr runs hm hc out cols rows baseline precision :
  reorganizeMetrics runs hm hc = Normal out →
  rows ≡ₚ map_to_list (byRunId out) →
  length (filter (λ row, Template.active row = true)
            (Template.TableBody toStr baseline cols precision rows))
    = match baseline with
      | Some id => match byRunId out !! id with
                   | Some _ => 1%nat
                   | None => 0%nat
                   end
      | None => 0%nat
      end
  ∧ ∀ row, row ∈ Template.TableBody toStr baseline cols precision rows →
      Template.link_id row = Template.toggles row.
Proof.
  intros H Hrows. split.
  - assert (NoDup (rows.*1)) as Hnd.
    { rewrite Hrows. apply NoDup_fst_map_to_list. }
    assert (length (filter (λ row, Template.active row = true)
                      (Template.TableBody toStr baseline cols precision rows))
            = length (filter (λ row : string * Run, baseline = Some row.1) rows))
      as ->.
    { unfold Template.TableBody. clear. induction rows as [|[id run] rows IH];
        [done|].
      rewrite fmap_cons. cbn [Template.TableRow].
      destruct (decide (baseline = Some id)) as [E|E].
      - rewrite !filter_cons_True;
          [| done | by (cbn; rewrite bool_decide_true)].
        cbn [length]. by rewrite IH.
      - rewrite !filter_cons_False;
          [| done | by (cbn; rewrite bool_decide_false)].
        done. }
    destruct baseline as [id|].
    + assert (filter (λ row : string * Run, Some id = Some row.1) rows
              = filter (λ row : string * Run, row.1 = id) rows) as ->.
      { apply list_filter_iff. intros [??]. simpl. split; congruence. }
      rewrite (filter_by_key_NoDup fst id rows Hnd).
      assert (id ∈ rows.*1 ↔ is_Some (byRunId out !! id)) as Hdom.
      { rewrite Hrows. rewrite list_elem_of_fmap. split.
        - intros ([id' r]&->&Hin%elem_of_map_to_list). by eexists.
        - intros [r Hr]. exists (id, r). by rewrite elem_of_map_to_list. }
      destruct (byRunId out !! id) as [r|] eqn:E.
      * rewrite decide_True; [done|]. apply Hdom. by eexists.
      * rewrite decide_False; [done|]. intros [? ?]%Hdom. done.
    + clear. induction rows as [|row rows IH]; [done|].
      by rewrite filter_cons_False.
  - intros row (id&run&Hin&->)%elem_of_TableBody.
    rewrite Hrows in Hin. apply elem_of_map_to_list in Hin.
    cbn. by destruct (byRunId_elem_of _ _ _ _ _ _ H Hin).
Qed.

Lemma one_baseline_row_witness :
  let out := {| byRunId := <["r1" := Sample.baseline]> {["r2" := Sample.partial]};
                columns := <["accuracy" := ["attack"; "defense"]]>
                             {["loss" := ["attack"]]} |} in
  reorganizeMetrics [Sample.baseline; Sample.partial] [] [] = Normal out
  ∧ length (filter (λ row, Template.active row = true)
              (Template.TableBody (λ _, "") (Some "r2")
                 (map_to_list (columns out)) 2 (map_to_list (byRunId out))))
    = 1%nat.
Proof.
  intros out.
  assert (reorganizeMetrics [Sample.baseline; Sample.partial] [] []
          = Normal out) as H by (by vm_compute).
  split; [exact H|].
  destruct (one_baseline_row (λ _, "") [Sample.baseline; Sample.partial] [] []
              out (map_to_list (columns out)) (map_to_list (byRunId out))
              (Some "r2") 2 H) as [Hcount _]; [done|].
  exact Hcount.
Defined.

(** ** The single-run page *)

(** With pairwise distinct run identifiers, the run the single-run page
    resolves for an identifier other than "__proto__" is the entry of
    [byRunId] under that identifier: both pages show the same run. *)
Theorem distinct_ids_resolve_alike runs hm hc out id :
  reorganizeMetrics runs hm hc = Normal out →
  NoDup ((λ r, run_id (info r)) <$> runs) →
  id ≠ "__proto__" →
  byRunId out !! id = SingleRun.run runs id.
Proof.
  intros H Hnd Hid. rewrite (byRunId_lookup _ _ _ _ _ H), decide_False by done.
  unfold last_with_id, SingleRun.run.
  pose proof (filter_by_key_NoDup (λ r, run_id (info r)) id runs Hnd) as Hlen.
  destruct (filter (λ r, run_id (info r) = id) runs) as [|r [|r' l]]; [done..|].
  exfalso. case_decide; simpl in Hlen; lia.
Qed.

Lemma distinct_ids_resolve_alike_witness :
  ∃ out,
    reorganizeMetrics [Sample.baseline; Sample.partial] [] [] = Normal out
    ∧ byRunId out !! "r2" = SingleRun.run [Sample.baseline; Sample.partial] "r2".
Proof.
  eexists. split; [reflexivity|].
  apply (distinct_ids_resolve_alike [Sample.baseline; Sample.partial] [] [] _
           "r2" eq_refl); [compute_done|done].
Defined.

Section Traces.
Import SingleRun Trace.
Implicit Types (c : Instance) (later : list (list Run * string)).

Lemma watched_update c runs id : watched (update c runs id) = run runs id.
Proof. unfold update. by case_decide. Qed.

Lemma losses_cons w n rest :
  losses (w :: n :: rest) =
    (match w, n with
     | Some _, None => 1
     | _, _ => 0
     end + losses (n :: rest))%nat.
Proof. by destruct w, n. Qed.

Lemma foldl_update c later :
  let final := foldl (λ c '(runs, id), update c runs id) c later in
  watched final = default (watched c) (last (resolutions later))
  ∧ pushed final
    = pushed c ++ replicate (losses (watched c :: resolutions later)) "index".
Proof.
  revert c. induction later as [|[runs id] later IH]; intros c; cbn [foldl].
  - split; [done|]. destruct (watched c); simpl; by rewrite app_nil_r.
  - destruct (IH (update c runs id)) as [Hw Hp]. cbn zeta in *.
    rewrite Hw, Hp, watched_update, pushed_update. split.
    + unfold resolutions. rewrite fmap_cons, last_cons.
      by destruct (last _).
    + unfold resolutions. rewrite fmap_cons. fold (resolutions later).
      rewrite losses_cons, replicate_add, <-app_assoc.
      by destruct (watched c), (run runs id).
Qed.

End Traces.

(** What [run_through] accumulates when a job of the watcher runs on each
    listed state: one 'index' for each place where a resolved run is followed
    by none, and the resolution of the latest state as the remembered one. *)
Lemma pushed_run_through first later :
  SingleRun.pushed (SingleRun.run_through first later)
    = replicate (Trace.losses (Trace.resolutions (first :: later))) "index"
  ∧ SingleRun.watched (SingleRun.run_through first later)
    = default None (last (Trace.resolutions (first :: later))).
Proof.
  unfold SingleRun.run_through. destruct first as [runs id]. cbn [fst snd].
  destruct (foldl_update (SingleRun.setup runs id) later) as [Hw Hp].
  cbn zeta in *. rewrite Hw, Hp. cbn [SingleRun.setup SingleRun.pushed
    SingleRun.watched fst snd app]. split; [done|].
  unfold Trace.resolutions. rewrite fmap_cons, last_cons.
  by destruct (last _).
Qed.





(** ** The route table and the links into it *)

(** Every redirect of the route table names a registered route that does not
    redirect further, so a redirect ends after one step; every named route
    has a component; and the link of a row header of the comparison table
    names a registered route, whose path takes the [id] parameter. *)
Theorem redirects_and_row_link_are_registered :
  Forall (λ '(_, r), match Routes.redirect r with
                     | Some target =>
                         target ∈ Routes.names
                         ∧ Routes.redirect_of target = None
                     | None => True
                     end) Routes.table
  ∧ Forall (λ '(_, r), is_Some (Routes.name r) → is_Some (Routes.component r))
      Routes.table
  ∧ Template.row_link ∈ Routes.names
  ∧ Routes.resolve Template.row_link = ["/run/:id/metrics"].
Proof.
  split_and!; [| |compute_done|reflexivity].
  - repeat (apply Forall_cons; split; [first [exact I|split; compute_done]|]).
    apply Forall_nil_2.
  - repeat (apply Forall_cons; split;
              [first [by eexists|by intros [? [=]]]|]).
    apply Forall_nil_2.
Qed.

Lemma run_app runs more id :
  SingleRun.run (runs ++ more) id =
    match SingleRun.run runs id with
    | Some r => Some r
    | None => SingleRun.run more id
    end.
Proof.
  unfold SingleRun.run. rewrite filter_app.
  by destruct (filter _ runs).
Qed.

(** A store that only grows never makes the page navigate: when runs are
    only ever appended and the [id] prop stays the same, a run once resolved
    stays the resolved run, and 'index' is never pushed. *)
Theorem growing_store_never_redirects runs id adds :
  SingleRun.pushed (SingleRun.run_through (runs, id) (Trace.grow runs id adds))
    = []
  ∧ ∀ r more, SingleRun.run runs id = Some r →
      SingleRun.run (runs ++ more) id = Some r.
Proof.
  split; [|by intros r more Hr; rewrite run_app, Hr].
  rewrite (proj1 (pushed_run_through _ _)).
  assert (Trace.losses
            (Trace.resolutions ((runs, id) :: Trace.grow runs id adds)) = 0%nat)
    as ->; [|done].
  unfold Trace.resolutions. rewrite fmap_cons.
  revert runs. induction adds as [|more adds IH]; intros runs; cbn [Trace.grow].
  - simpl. by destruct (SingleRun.run runs id).
  - rewrite fmap_cons. specialize (IH (runs ++ more)).
    cbn [Trace.losses] in *. rewrite run_app in *.
    by destruct (SingleRun.run runs id), (SingleRun.run more id).
Qed.

(** Reordering the runs changes neither whether [reorganizeMetrics] returns
    nor which chains stand under which metric name (only their order may
    change); with pairwise distinct run identifiers, [byRunId] holds the same
    run under every identifier (the order in which its keys are enumerated is
    not part of the model and follows the order of the runs). *)
Theorem reordering_runs_keeps_columns runs runs' hm hc out :
  runs ≡ₚ runs' →
  reorganizeMetrics runs hm hc = Normal out →
  ∃ out',
    reorganizeMetrics runs' hm hc = Normal out'
    ∧ (∀ m chains, columns out !! m = Some chains →
         ∃ chains', columns out' !! m = Some chains' ∧ chains ≡ₚ chains')
    ∧ (NoDup ((λ r, run_id (info r)) <$> runs) →
       ∀ id, byRunId out' !! id = byRunId out !! id).
Proof.
  intros Hperm H.
  assert (∀ k, k ∈ all_keys runs ↔ k ∈ all_keys runs') as Hkeys.
  { intros k. rewrite !elem_of_all_keys. by setoid_rewrite Hperm. }
  destruct (reorganizeMetrics runs' hm hc) as [out'|e] eqn:H'.
  - exists out'. split; [done|]. split.
    + intros m chains Hm.
      assert (NoDup chains ∧ chains ≠ []) as [Hnd Hne].
      { rewrite (columns_lookup _ _ _ _ m H) in Hm.
        pose proof (NoDup_omap_chain_in hm hc m _
                      (NoDup_foldl_set_add (all_keys runs) [] (NoDup_nil_2))).
        destruct (omap _ _); [done|]. by injection Hm as <-. }
      destruct chains as [|c0 cs]; [done|].
      assert (∃ chains', columns out' !! m = Some chains' ∧ c0 ∈ chains')
        as (chains'&Hm'&_).
      { apply (columns_elem_of _ _ _ _ _ _ H'). rewrite <-Hkeys.
        apply (columns_elem_of _ _ _ _ _ _ H). exists (c0 :: cs).
        split; [done|by left]. }
      exists chains'. split; [done|]. apply NoDup_Permutation; [done| |].
      * rewrite (columns_lookup _ _ _ _ m H') in Hm'.
        pose proof (NoDup_omap_chain_in hm hc m _
                      (NoDup_foldl_set_add (all_keys runs') [] (NoDup_nil_2))).
        destruct (omap _ _); [done|]. by injection Hm' as <-.
      * intros c. split; intros Hc.
        -- assert (∃ chains, columns out' !! m = Some chains ∧ c ∈ chains)
             as (?&?&?); [|congruence].
           apply (columns_elem_of _ _ _ _ _ _ H'). rewrite <-Hkeys.
           apply (columns_elem_of _ _ _ _ _ _ H). eauto.
        -- assert (∃ chains, columns out !! m = Some chains ∧ c ∈ chains)
             as (?&?&?); [|congruence].
           apply (columns_elem_of _ _ _ _ _ _ H). rewrite Hkeys.
           apply (columns_elem_of _ _ _ _ _ _ H'). eauto.
    + intros Hnd id.
      rewrite (byRunId_lookup _ _ _ _ id H), (byRunId_lookup _ _ _ _ id H').
      case_decide; [done|]. unfold last_with_id.
      pose proof (filter_by_key_NoDup (λ r, run_id (info r)) id runs Hnd)
        as Hlen.
      assert (filter (λ r, run_id (info r) = id) runs
              ≡ₚ filter (λ r, run_id (info r) = id) runs') as Hf
        by by rewrite Hperm.
      destruct (filter (λ r, run_id (info r) = id) runs) as [|r [|r' l]].
      * by apply Permutation_nil_l in Hf as <-.
      * by apply Permutation_singleton_l in Hf as ->.
      * exfalso. case_decide; simpl in Hlen; lia.
  - apply reorganizeMetrics_Throw in H' as (_&c&m&Hk&?).
    assert (reorganizeMetrics runs hm hc = Throw TypeError) as Ht; [|congruence].
    apply reorganizeMetrics_Throw. split; [done|]. exists c, m.
    by rewrite Hkeys.
Qed.

Lemma reordering_runs_keeps_columns_witness :
  ∃ out out',
    reorganizeMetrics [Sample.partial; Sample.baseline] [] [] = Normal out
    ∧ reorganizeMetrics [Sample.baseline; Sample.partial] [] [] = Normal out'
    ∧ ∀ id, byRunId out' !! id = byRunId out !! id.
Proof.
  assert ([Sample.partial; Sample.baseline] ≡ₚ [Sample.baseline; Sample.partial])
    as Hperm by apply Permutation_swap.
  destruct (reordering_runs_keeps_columns _ _ [] [] _ Hperm eq_refl)
    as (out'&H'&_&Hby).
  eexists _, out'. split; [reflexivity|]. split; [exact H'|].
  apply Hby. compute_done.
Defined.
